(** * HOOMD-blue: MPCD particle migration kernels and the GPU distance-constraint solver

    A shallow embedding of
    - [mpcd/ParticleData.cu]: the kernels [mark_removed_particles],
      [remove_particles], [add_particles] and the host wrappers around them;
    - [ForceDistanceConstraintGPU.cu]: the kernels that fill the constraint
      matrix and right-hand side and that write the constraint forces back;
    - [ForceDistanceConstraintGPU.cc]: the host-side solve pipeline
      [computeConstraintForces].

    Conventions.
    - A device pointer is a total map from offsets to values ([darray]); a
      store [p[i] = v] is [upd p i v].  Capacity is the caller's obligation,
      as in the source.
    - [unsigned int] indices are [nat]; where the source computes an index by
      an addition or a multiplication the 32-bit wrap-around is written
      [wrap32].  Status words are [Z] with [Z.land] and a 32-bit complement.
    - [Scalar] and [double] are read as exact rationals ([Q]): the theorems
      speak about the arithmetic the kernels spell out, not about rounding.
    - A kernel launch runs the thread body once per thread index
      [blockIdx.x * blockDim.x + threadIdx.x], in increasing index order. *)

From Stdlib Require Import String List Arith NArith ZArith QArith Lia Bool Permutation.
Import ListNotations.

Close Scope Q_scope.
Open Scope nat_scope.

(** ** Device memory and kernel launches *)

Definition darray (A : Type) : Type := nat -> A.

Definition upd {A : Type} (a : darray A) (i : nat) (v : A) : darray A :=
  fun j => if j =? i then v else a j.

(** The first [n] cells of an array, as a list. *)
Definition prefix {A : Type} (a : darray A) (n : nat) : list A :=
  map a (seq 0 n).

(** An array holding the list [l] at offsets [0 .. length l - 1]. *)
Definition of_list {A : Type} (d : A) (l : list A) : darray A :=
  fun i => nth i l d.

(** Arithmetic on [unsigned int] is modulo 2^32. *)
Definition wrap32 (n : nat) : nat :=
  N.to_nat (N.of_nat n mod 4294967296).

(** [kernel<<<n_blocks, block_size>>>(...)]: one run of [thread] per index. *)
Definition launch {M : Type} (n_blocks block_size : nat)
    (thread : nat -> M -> M) (mem : M) : M :=
  fold_left (fun m idx => thread idx m) (seq 0 (n_blocks * block_size)) mem.

Record Scalar4 : Type := make_scalar4 { s4x : Q; s4y : Q; s4z : Q; s4w : Q }.

Module MPCD.

(** [mpcd::detail::pdata_element], the packed record that is shipped between
    domains. *)
Record pdata_element : Type := mk_pdata_element
  { pos : Scalar4; vel : Scalar4; tag : nat; comm_flag : Z }.

(** The four arrays the compaction kernel fills (the alternate buffers) and
    the packed output buffer. *)
Record remove_mem : Type := mk_remove_mem
  { d_out : darray pdata_element;
    d_pos_alt : darray Scalar4;
    d_vel_alt : darray Scalar4;
    d_tag_alt : darray nat;
    d_comm_flags_alt : darray Z }.

(** The local particle arrays [add_particles] appends to. *)
Record pdata_mem : Type := mk_pdata_mem
  { d_pos : darray Scalar4;
    d_vel : darray Scalar4;
    d_tag : darray nat;
    d_comm_flags : darray Z }.

(** Temporary arrays written by the classifier. *)
Record mark_mem : Type := mk_mark_mem
  { d_tmp_flag : darray Z; d_tmp_id : darray nat }.

Module kernel.

(** [__global__ void remove_particles]. *)
Definition remove_particles (n_keep : nat)
    (d_pos d_vel : darray Scalar4) (d_tag : darray nat) (d_comm_flags : darray Z)
    (d_scan : darray nat) (N : nat) (idx : nat) (m : remove_mem) : remove_mem :=
  if N <=? idx then m
  else
    let pid := d_scan idx in
    let pos := d_pos pid in
    let vel := d_vel pid in
    let tag := d_tag pid in
    let flag := d_comm_flags pid in
    if n_keep <=? idx then
      let p := mk_pdata_element pos vel tag flag in
      mk_remove_mem (upd (d_out m) (idx - n_keep) p)
        (d_pos_alt m) (d_vel_alt m) (d_tag_alt m) (d_comm_flags_alt m)
    else
      mk_remove_mem (d_out m)
        (upd (d_pos_alt m) idx pos) (upd (d_vel_alt m) idx vel)
        (upd (d_tag_alt m) idx tag) (upd (d_comm_flags_alt m) idx flag).

(** [__global__ void mark_removed_particles]. *)
Definition mark_removed_particles (d_comm_flags : darray Z) (mask : Z) (N : nat)
    (idx : nat) (m : mark_mem) : mark_mem :=
  if N <=? idx then m
  else
    mk_mark_mem
      (upd (d_tmp_flag m) idx
         (if (Z.land (d_comm_flags idx) mask =? 0)%Z then 1%Z else 0%Z))
      (upd (d_tmp_id m) idx idx).

(** The 32-bit complement [~mask]. *)
Definition not32 (mask : Z) : Z := (Z.lnot mask mod 4294967296)%Z.

(** [__global__ void add_particles]. *)
Definition add_particles (old_nparticles num_add_ptls : nat)
    (d_in : darray pdata_element) (mask : Z)
    (idx : nat) (m : pdata_mem) : pdata_mem :=
  if num_add_ptls <=? idx then m
  else
    let p := d_in idx in
    let add_idx := wrap32 (old_nparticles + idx) in
    mk_pdata_mem
      (upd (d_pos m) add_idx (pos p))
      (upd (d_vel m) add_idx (vel p))
      (upd (d_tag m) add_idx (tag p))
      (upd (d_comm_flags m) add_idx (Z.land (comm_flag p) (not32 mask))).

End kernel.

(** Modelled from the spec: [cub::DevicePartition::Flagged], the library
    routine behind [partition_particles], is not part of the sources at hand.
    Following section 4.2 it is a prefix-sum based scatter: an exclusive
    prefix sum over the keep predicate gives each kept item its slot, and a
    second exclusive prefix sum over the complementary predicate, offset by
    the number [K] of kept items, gives each removed item its slot.  The
    model is of the call that does the work (temporary storage allocated). *)
Fixpoint exclusive_sum (f : nat -> nat) (i : nat) : nat :=
  match i with
  | 0 => 0
  | S j => exclusive_sum f j + f j
  end.

(** Modelled from the spec: an item is kept when its flag is set. *)
Definition selected (d_flags : darray Z) (i : nat) : bool :=
  negb (d_flags i =? 0)%Z.

(** Modelled from the spec: the keep predicate as the summand of the first
    prefix sum. *)
Definition keep_bit (d_flags : darray Z) (i : nat) : nat :=
  if selected d_flags i then 1 else 0.

(** Modelled from the spec: the complementary predicate as the summand of
    the second prefix sum. *)
Definition drop_bit (d_flags : darray Z) (i : nat) : nat :=
  if selected d_flags i then 0 else 1.

(** Modelled from the spec: the new slot of item [i]. *)
Definition slot (d_flags : darray Z) (N : nat) (i : nat) : nat :=
  if selected d_flags i then exclusive_sum (keep_bit d_flags) i
  else exclusive_sum (keep_bit d_flags) N + exclusive_sum (drop_bit d_flags) i.

(** Modelled from the spec: [cub::DevicePartition::Flagged], the scatter of
    the items to their slots together with the number of kept items. *)
Definition Flagged {A : Type} (d_in : darray A) (d_flags : darray Z)
    (d_out : darray A) (N : nat) : darray A * nat :=
  (fold_left (fun o i => upd o (slot d_flags N i) (d_in i)) (seq 0 N) d_out,
   exclusive_sum (keep_bit d_flags) N).

(** [mpcd::gpu::partition_particles]: returns the output array and the value
    stored through [d_num_select]. *)
Definition partition_particles (d_ids : darray nat) (d_flags : darray Z)
    (d_out : darray nat) (N : nat) : darray nat * nat :=
  Flagged d_ids d_flags d_out N.

(** The reference the spec compares with: a stable two-way partition of a
    list, together with the number of elements of the first group. *)
Definition stable_partition {A : Type} (keep : A -> bool) (l : list A)
    : list A * nat :=
  (filter keep l ++ filter (fun x => negb (keep x)) l, length (filter keep l)).

(** Host wrapper [mpcd::gpu::mark_removed_particles]; [max_block_size] is the
    kernel attribute queried through [cudaFuncGetAttributes]. *)
Definition mark_removed_particles (max_block_size : nat)
    (m : mark_mem) (d_comm_flags : darray Z) (mask : Z) (N block_size : nat)
    : mark_mem :=
  let run_block_size := Nat.min block_size max_block_size in
  launch (N / run_block_size + 1) run_block_size
    (kernel.mark_removed_particles d_comm_flags mask N) m.

(** Host wrapper [mpcd::gpu::remove_particles].  Its second parameter is
    named [mask] in the source and is handed to the kernel in the position of
    [n_keep]. *)
Definition remove_particles (m : remove_mem) (mask : nat)
    (d_pos d_vel : darray Scalar4) (d_tag : darray nat) (d_comm_flags : darray Z)
    (d_scan : darray nat) (N : nat) : remove_mem :=
  let block_size := 512 in
  let n_blocks := N / block_size + 1 in
  launch n_blocks block_size
    (kernel.remove_particles mask d_pos d_vel d_tag d_comm_flags d_scan N) m.

(** Host wrapper [mpcd::gpu::add_particles]. *)
Definition add_particles (old_nparticles num_add_ptls : nat) (m : pdata_mem)
    (d_in : darray pdata_element) (mask : Z) : pdata_mem :=
  let block_size := 512 in
  let n_blocks := num_add_ptls / block_size + 1 in
  launch n_blocks block_size
    (kernel.add_particles old_nparticles num_add_ptls d_in mask) m.

End MPCD.

(** ** Pairwise distance constraints on the GPU *)

Module Constraint.

Local Open Scope Q_scope.

(** Modelled from the spec: [vec3<Scalar>], whose header is not part of the
    sources at hand, with the componentwise operations and the dot product
    that the formulas of section 4.4 use. *)
Record vec3 : Type := mk_vec3 { vx : Q; vy : Q; vz : Q }.

Definition vec3_of (a : Scalar4) : vec3 := mk_vec3 (s4x a) (s4y a) (s4z a).
Definition vzero : vec3 := mk_vec3 0 0 0.
Definition vadd (a b : vec3) : vec3 :=
  mk_vec3 (vx a + vx b) (vy a + vy b) (vz a + vz b).
Definition vsub (a b : vec3) : vec3 :=
  mk_vec3 (vx a - vx b) (vy a - vy b) (vz a - vz b).
Definition vscale (s : Q) (a : vec3) : vec3 :=
  mk_vec3 (s * vx a) (s * vy a) (s * vz a).
Definition vdiv (a : vec3) (s : Q) : vec3 :=
  mk_vec3 (vx a / s) (vy a / s) (vz a / s).
Definition dot (a b : vec3) : Q := vx a * vx b + vy a * vy b + vz a * vz b.

(** [group_storage<2>] as the kernels read it: [idx[0]] is the other
    particle of the constraint, [idx[1]] the constraint index. *)
Record group_storage : Type := mk_group_storage { idx_0 : nat; idx_1 : nat }.

(** [typeval_union]: only its [val] member is read. *)
Record typeval_union : Type := mk_typeval { val : Q }.

(** [BoxDim]: only [minImage] is used, and it is a parameter of the model. *)
Record BoxDim : Type := mk_box { minImage : vec3 -> vec3 }.

(** A store into one of the two output arrays of the fill kernel. *)
Inductive write : Type :=
| MatW (cell : nat) (v : Q)
| VecW (n : nat) (v : Q).

Record fill_mem : Type := mk_fill_mem
  { d_matrix : darray Q; d_vec : darray Q }.

Definition apply_write (m : fill_mem) (w : write) : fill_mem :=
  match w with
  | MatW c v => mk_fill_mem (upd (d_matrix m) c v) (d_vec m)
  | VecW n v => mk_fill_mem (d_matrix m) (upd (d_vec m) n v)
  end.

Definition apply_writes (l : list write) (m : fill_mem) : fill_mem :=
  fold_left apply_write l m.

(** [cudaMemset(p, 0, sizeof(double) * n)]. *)
Definition memset0 (a : darray Q) (n : nat) : darray Q :=
  fun i => if (i <? n)%nat then 0 else a i.

Section Kernels.

(** The arguments of the kernels.  [Index2D] is not part of the sources at
    hand: the indexer is any map from (particle, slot) to offsets. *)
Variable n_constraint : nat.
Variable nptl_local : nat.
Variables d_pos d_vel d_netforce : darray Scalar4.
Variable d_gpu_clist : darray group_storage.
Variable gpu_clist_indexer : nat -> nat -> nat.
Variable d_gpu_n_constraints : darray nat.
Variable d_gpu_cpos : darray nat.
Variable d_group_typeval : darray typeval_union.
Variable deltaT : Q.
Variable box : BoxDim.

(** The ordered pair [(idx_na, idx_nb)] of the constraint stored in slot
    [cidx] of particle [idx]. *)
Definition ordered (idx cidx : nat) : nat * nat :=
  let other := idx_0 (d_gpu_clist (gpu_clist_indexer idx cidx)) in
  if (d_gpu_cpos (gpu_clist_indexer idx cidx) =? 0)%nat
  then (idx, other) else (other, idx).

(** Minimum-image separation [pos(a) - pos(b)]. *)
Definition separation (ab : nat * nat) : vec3 :=
  minImage box (vsub (vec3_of (d_pos (fst ab))) (vec3_of (d_pos (snd ab)))).

(** [qn = rn + deltaT * rndot]. *)
Definition predicted (ab : nat * nat) : vec3 :=
  let rn := separation ab in
  let rndot := vsub (vec3_of (d_vel (fst ab))) (vec3_of (d_vel (snd ab))) in
  vadd rn (vscale deltaT rndot).

(** The local [mat_element] after the four tests. *)
Definition mat_element (idx_na idx_nb idx_ma idx_mb : nat) (qn rm : vec3)
    (ma mb : Q) : Q :=
  let e := 0 in
  let e := if (idx_na =? idx_ma)%nat then e + 4 * dot qn rm / ma else e in
  let e := if (idx_na =? idx_mb)%nat then e - 4 * dot qn rm / ma else e in
  let e := if (idx_nb =? idx_ma)%nat then e - 4 * dot qn rm / mb else e in
  let e := if (idx_nb =? idx_mb)%nat then e + 4 * dot qn rm / mb else e in
  e.

(** The value stored into [d_vec[n]]. *)
Definition vec_element (ab : nat * nat) (d : Q) : Q :=
  let qn := predicted ab in
  let ma := s4w (d_vel (fst ab)) in
  let mb := s4w (d_vel (snd ab)) in
  (dot qn qn - d * d) / deltaT / deltaT
  + 2 * dot qn (vsub (vdiv (vec3_of (d_netforce (fst ab))) ma)
                     (vdiv (vec3_of (d_netforce (snd ab))) mb)).

(** One iteration of the inner loop: the offset [m * n_constraint + n] of the
    cell and the value of [mat_element] that is stored there. *)
Definition matrix_cell (idx cidx_i cidx_j : nat) : nat :=
  let cur_constraint_idx_i := idx_0 (d_gpu_clist (gpu_clist_indexer idx cidx_i)) in
  let n := idx_1 (d_gpu_clist (gpu_clist_indexer idx cidx_i)) in
  let m := idx_1 (d_gpu_clist (gpu_clist_indexer cur_constraint_idx_i cidx_j)) in
  wrap32 (m * n_constraint + n).

Definition matrix_value (idx cidx_i cidx_j : nat) : Q :=
  let cur_constraint_idx_i := idx_0 (d_gpu_clist (gpu_clist_indexer idx cidx_i)) in
  let ab := ordered idx cidx_i in
  let ma := s4w (d_vel (fst ab)) in
  let mb := s4w (d_vel (snd ab)) in
  let qn := predicted ab in
  let mab := ordered cur_constraint_idx_i cidx_j in
  let rm := separation mab in
  mat_element (fst ab) (snd ab) (fst mab) (snd mab) qn rm ma mb.

Definition inner_write (idx cidx_i cidx_j : nat) : write :=
  MatW (matrix_cell idx cidx_i cidx_j) (matrix_value idx cidx_i cidx_j).

(** The test that guards the store into [d_vec]. *)
Definition vec_guard (idx cidx_i : nat) : bool :=
  let cpos := d_gpu_cpos (gpu_clist_indexer idx cidx_i) in
  let ab := ordered idx cidx_i in
  (cpos =? 0)%nat || (nptl_local <=? fst ab)%nat || (nptl_local <=? snd ab)%nat.

(** One iteration of the outer loop: the stores of the inner loop, then the
    guarded store into the vector. *)
Definition outer_writes (idx cidx_i : nat) : list write :=
  let cur_constraint_idx_i := idx_0 (d_gpu_clist (gpu_clist_indexer idx cidx_i)) in
  let n := idx_1 (d_gpu_clist (gpu_clist_indexer idx cidx_i)) in
  let d := val (d_group_typeval n) in
  let ab := ordered idx cidx_i in
  let n_constraint_i := d_gpu_n_constraints cur_constraint_idx_i in
  map (inner_write idx cidx_i) (seq 0 n_constraint_i)
  ++ (if vec_guard idx cidx_i then [VecW n (vec_element ab d)] else []).

(** The stores of thread [idx] of [gpu_fill_matrix_vector_kernel], in program
    order. *)
Definition thread_writes (idx : nat) : list write :=
  if (nptl_local <=? idx)%nat then []
  else flat_map (outer_writes idx) (seq 0 (d_gpu_n_constraints idx)).

(** [__global__ void gpu_fill_matrix_vector_kernel]. *)
Definition gpu_fill_matrix_vector_kernel (idx : nat) (m : fill_mem) : fill_mem :=
  apply_writes (thread_writes idx) m.

(** Host function [gpu_fill_matrix_vector]; [max_block_size] is the kernel
    attribute queried through [cudaFuncGetAttributes]. *)
Definition gpu_fill_matrix_vector (max_block_size : nat) (m : fill_mem)
    (block_size : nat) : fill_mem :=
  let run_block_size := Nat.min block_size max_block_size in
  let n_blocks := (nptl_local / run_block_size + 1)%nat in
  let d_vec := memset0 (d_vec m) n_constraint in
  let d_matrix := memset0 (d_matrix m) (n_constraint * n_constraint) in
  launch n_blocks run_block_size gpu_fill_matrix_vector_kernel
    (mk_fill_mem d_matrix d_vec).

(** The stores of a whole launch, thread after thread. *)
Definition launch_writes (n_threads : nat) : list write :=
  flat_map thread_writes (seq 0 n_threads).

Variable d_lagrange : darray Q.

(** One iteration of the loop of the force kernel: the new value of [f]. *)
Definition force_step (idx : nat) (f : vec3) (cidx : nat) : vec3 :=
  let n := idx_1 (d_gpu_clist (gpu_clist_indexer idx cidx)) in
  let cpos := d_gpu_cpos (gpu_clist_indexer idx cidx) in
  let rn := separation (ordered idx cidx) in
  if (idx <? nptl_local)%nat then
    if (cpos =? 0)%nat then vadd f (vscale (- (2) * d_lagrange n) rn)
    else vadd f (vscale (2 * d_lagrange n) rn)
  else f.

(** [__global__ void gpu_fill_constraint_forces_kernel]. *)
Definition gpu_fill_constraint_forces_kernel (idx : nat)
    (d_force : darray Scalar4) : darray Scalar4 :=
  if (nptl_local <=? idx)%nat then d_force
  else
    let n_constraint_ptl := d_gpu_n_constraints idx in
    let f := fold_left (force_step idx) (seq 0 n_constraint_ptl) vzero in
    upd d_force idx (make_scalar4 (vx f) (vy f) (vz f) 0).

(** Host function [gpu_compute_constraint_forces]. *)
Definition gpu_compute_constraint_forces (max_block_size : nat)
    (d_force : darray Scalar4) (block_size : nat) : darray Scalar4 :=
  let run_block_size := Nat.min block_size max_block_size in
  let n_blocks := (nptl_local / run_block_size + 1)%nat in
  launch n_blocks run_block_size gpu_fill_constraint_forces_kernel d_force.

(** Modelled from the spec: the Constraint Group Table is built outside the
    sources at hand; by section 3 it is the per-particle adjacency list of
    the constraint graph and stays synchronized with it.  Constraint [n] of
    the list [cs] joins the particles with indices [fst] (role a) and [snd]
    (role b), and [incident cs p] lists, for particle [p], the triples (other
    particle, constraint index, position of [p] in the constraint). *)
Definition incident (cs : list (nat * nat)) (p : nat) : list (nat * nat * nat) :=
  flat_map
    (fun nc : nat * (nat * nat) =>
       let n := fst nc in
       let a := fst (snd nc) in
       let b := snd (snd nc) in
       (if (a =? p)%nat then [(b, n, 0%nat)] else [])
       ++ (if (b =? p)%nat then [(a, n, 1%nat)] else []))
    (combine (seq 0 (length cs)) cs).

(** The slots of particle [p] in the device table. *)
Definition row (p : nat) : list (nat * nat * nat) :=
  map (fun cidx =>
         (idx_0 (d_gpu_clist (gpu_clist_indexer p cidx)),
          idx_1 (d_gpu_clist (gpu_clist_indexer p cidx)),
          d_gpu_cpos (gpu_clist_indexer p cidx)))
      (seq 0 (d_gpu_n_constraints p)).

(** Modelled from the spec: the table is synchronized with the graph, that
    is, the row of every local particle holds its incident constraints, each
    once, in some order. *)
Definition table_matches (cs : list (nat * nat)) : Prop :=
  forall p, (p < nptl_local)%nat -> Permutation (row p) (incident cs p).







End Kernels.

(** Componentwise equality of rationals on vectors. *)
Definition veq (a b : vec3) : Prop :=
  vx a == vx b /\ vy a == vy b /\ vz a == vz b.

(** Views of a list of stores: the last value stored into a matrix cell or a
    vector entry, how often a vector entry is stored into, and the sum of all
    values stored into a matrix cell. *)
Definition last_mat (c : nat) (l : list write) : option Q :=
  fold_left (fun acc w =>
               match w with
               | MatW c' v => if (c' =? c)%nat then Some v else acc
               | VecW _ _ => acc
               end) l None.

Definition last_vec (n : nat) (l : list write) : option Q :=
  fold_left (fun acc w =>
               match w with
               | VecW n' v => if (n' =? n)%nat then Some v else acc
               | MatW _ _ => acc
               end) l None.


Definition contributions (c : nat) (l : list write) : Q :=
  fold_right (fun w acc =>
                match w with
                | MatW c' v => if (c' =? c)%nat then v + acc else acc
                | VecW _ _ => acc
                end) 0 l.


End Constraint.

(** ** The host-side solve pipeline *)

Module Solver.

Local Open Scope Z_scope.

(** The library and kernel calls [computeConstraintForces] makes, and the
    messages it prints. *)
Inductive call : Type :=
| cusparseDnnz
| cusparseDdense2csr
| msg_notice
| cusolverSpCreate
| cusolverSpXcsrsymrcmHost
| cusolverSpXcsrperm_bufferSizeHost
| cusolverSpXcsrpermHost
| cusolverSpCreateCsrluInfoHost
| cusolverSpXcsrluAnalysisHost
| cusolverSpDcsrluBufferInfoHost
| cusolverSpDcsrluFactorHost
| cusolverSpDcsrluZeroPivotHost
| msg_error (text : string)
| cusolverSpXcsrluNnzHost
| cusolverSpDcsrluExtractHost
| cusolverSpDestroyCsrluInfoHost
| cusolverSpDestroy
| cusolverRfCreate
| cusolverRfSetNumericProperties
| cusolverRfSetAlgs
| cusolverRfSetMatrixFormat
| cusolverRfSetupHost
| cusolverRfAnalyze
| cusolverRfResetValues
| cusolverRfRefactor
| cudaMemcpy
| cusolverRfSolve
| gpu_compute_constraint_forces.

(** The members of [ForceDistanceConstraintGPU] that steer the pipeline. *)
Record state : Type := mk_state
  { m_constraints_dirty : bool;
    m_nnz_tot : Z;
    m_cusolver_rf_initialized : bool }.

(** What the two queried library routines answer during one solve:
    [cusparseDnnz] (the number of nonzeros of the dense matrix) and
    [cusolverSpDcsrluZeroPivotHost] (the index of a zero pivot, or -1). *)
Record answers : Type := mk_answers { new_nnz : Z; singularity : Z }.

(** The state as the constructor leaves it. *)
Definition constructed : state := mk_state true 0 false.

(** A computation either returns or throws a [std::runtime_error]; in both
    cases it leaves a state and the calls made so far. *)
Inductive outcome (A : Type) : Type :=
| Returned (a : A) (s : state) (tr : list call)
| Thrown (what : string) (s : state) (tr : list call).
Arguments Returned {A} a s tr.
Arguments Thrown {A} what s tr.

Definition M (A : Type) : Type := state -> list call -> outcome A.

Definition newline : string := String (Ascii.ascii_of_nat 10) EmptyString.

Definition ret {A : Type} (a : A) : M A := fun s tr => Returned a s tr.

Definition bind {A B : Type} (m : M A) (k : A -> M B) : M B :=
  fun s tr =>
    match m s tr with
    | Returned a s' tr' => k a s' tr'
    | Thrown what s' tr' => Thrown what s' tr'
    end.

Definition emit (c : call) : M unit := fun s tr => Returned tt s (tr ++ [c]).
Definition throw {A : Type} (what : string) : M A := fun s tr => Thrown what s tr.
Definition get : M state := fun s tr => Returned s s tr.
Definition put (s : state) : M unit := fun _ tr => Returned tt s tr.

Notation "x <- m ;; k" := (bind m (fun x => k))
  (at level 61, m at next level, right associativity).
Notation "m ;;; k" := (bind m (fun _ => k))
  (at level 61, right associativity).

(** [gpu_dense2sparse], called on [m_nnz_tot]: counts the nonzeros, reports
    through [sparsity_pattern_changed] whether the count differs from the
    stored one, stores the new count and converts the matrix. *)
Definition gpu_dense2sparse (a : answers) : M Z :=
  emit cusparseDnnz ;;;
  s <- get ;;
  let nnz := m_nnz_tot s in
  let sparsity_pattern_changed := Z.b2z (negb (nnz =? new_nnz a)) in
  put (mk_state (m_constraints_dirty s) (new_nnz a) (m_cusolver_rf_initialized s)) ;;;
  emit cusparseDdense2csr ;;;
  ret sparsity_pattern_changed.

(** The block guarded by [if (sparsity_pattern_changed)]. *)
Definition full_factorization (a : answers) : M unit :=
  emit msg_notice ;;;
  emit cusolverSpCreate ;;;
  emit cusolverSpXcsrsymrcmHost ;;;
  emit cusolverSpXcsrperm_bufferSizeHost ;;;
  emit cusolverSpXcsrpermHost ;;;
  emit cusolverSpCreateCsrluInfoHost ;;;
  emit cusolverSpXcsrluAnalysisHost ;;;
  emit cusolverSpDcsrluBufferInfoHost ;;;
  emit cusolverSpDcsrluFactorHost ;;;
  emit cusolverSpDcsrluZeroPivotHost ;;;
  (if 0 <=? singularity a
   then emit (msg_error "Singular constraint matrix.") ;;;
        throw ("Error computing constraint forces" ++ newline)
   else ret tt) ;;;
  emit cusolverSpXcsrluNnzHost ;;;
  emit cusolverSpDcsrluExtractHost ;;;
  emit cusolverSpDestroyCsrluInfoHost ;;;
  emit cusolverSpDestroy ;;;
  s <- get ;;
  (if negb (m_cusolver_rf_initialized s)
   then emit cusolverRfCreate ;;;
        put (mk_state (m_constraints_dirty s) (m_nnz_tot s) true) ;;;
        emit cusolverRfSetNumericProperties ;;;
        emit cusolverRfSetAlgs ;;;
        emit cusolverRfSetMatrixFormat
   else ret tt) ;;;
  emit cusolverRfSetupHost ;;;
  emit cusolverRfAnalyze.

(** [ForceDistanceConstraintGPU::computeConstraintForces]. *)
Definition computeConstraintForces (a : answers) : M unit :=
  sparsity_pattern_changed <- gpu_dense2sparse a ;;
  s <- get ;;
  let sparsity_pattern_changed :=
    Z.lor sparsity_pattern_changed (Z.b2z (m_constraints_dirty s)) in
  put (mk_state false (m_nnz_tot s) (m_cusolver_rf_initialized s)) ;;;
  (if negb (sparsity_pattern_changed =? 0)
   then full_factorization a
   else ret tt) ;;;
  emit cusolverRfResetValues ;;;
  emit cusolverRfRefactor ;;;
  emit cudaMemcpy ;;;
  emit cusolverRfSolve ;;;
  emit gpu_compute_constraint_forces.

(** One solve, started with an empty record of calls. *)
Definition solve (s : state) (a : answers) : outcome unit :=
  computeConstraintForces a s [].

Definition calls {A : Type} (o : outcome A) : list call :=
  match o with Returned _ _ tr => tr | Thrown _ _ tr => tr end.

Definition final {A : Type} (o : outcome A) : state :=
  match o with Returned _ s _ => s | Thrown _ s _ => s end.

Definition thrown {A : Type} (o : outcome A) : bool :=
  match o with Returned _ _ _ => false | Thrown _ _ _ => true end.

(** The condition under which a solve has to refactorize: the nonzero count
    changed or the notification flag is set. *)
Definition refactor_needed (s : state) (a : answers) : bool :=
  negb (m_nnz_tot s =? new_nnz a) || m_constraints_dirty s.

(** The calls of the conversion, of the full path up to and including the
    zero-pivot check, the calls that follow it when no zero pivot is found,
    and the fast path. *)
Definition conversion_calls : list call := [ cusparseDnnz; cusparseDdense2csr ].

Definition analysis_calls : list call :=
  [ msg_notice; cusolverSpCreate; cusolverSpXcsrsymrcmHost;
    cusolverSpXcsrperm_bufferSizeHost; cusolverSpXcsrpermHost;
    cusolverSpCreateCsrluInfoHost; cusolverSpXcsrluAnalysisHost;
    cusolverSpDcsrluBufferInfoHost; cusolverSpDcsrluFactorHost;
    cusolverSpDcsrluZeroPivotHost ].

Definition extraction_calls : list call :=
  [ cusolverSpXcsrluNnzHost; cusolverSpDcsrluExtractHost;
    cusolverSpDestroyCsrluInfoHost; cusolverSpDestroy ].

Definition handle_creation_calls (s : state) : list call :=
  if m_cusolver_rf_initialized s then []
  else [ cusolverRfCreate; cusolverRfSetNumericProperties; cusolverRfSetAlgs;
         cusolverRfSetMatrixFormat ].

Definition setup_calls : list call := [ cusolverRfSetupHost; cusolverRfAnalyze ].

Definition fast_path_calls : list call :=
  [ cusolverRfResetValues; cusolverRfRefactor; cudaMemcpy; cusolverRfSolve;
    gpu_compute_constraint_forces ].

(** What a solve does, path by path. *)
Definition solved (s : state) (a : answers) (tr : list call) : outcome unit :=
  Returned tt (mk_state false (new_nnz a) true) tr.

Definition fast_solve (s : state) (a : answers) : outcome unit :=
  Returned tt (mk_state false (new_nnz a) (m_cusolver_rf_initialized s))
    (conversion_calls ++ fast_path_calls).

Definition full_solve (s : state) (a : answers) : outcome unit :=
  solved s a
    (conversion_calls ++ analysis_calls ++ extraction_calls
       ++ handle_creation_calls s ++ setup_calls ++ fast_path_calls).

Definition aborted_solve (s : state) (a : answers) : outcome unit :=
  Thrown ("Error computing constraint forces" ++ newline)
    (mk_state false (new_nnz a) (m_cusolver_rf_initialized s))
    (conversion_calls ++ analysis_calls
       ++ [msg_error "Singular constraint matrix."]).

(** The reading of the spec's sentence on the two paths: the steps it lists
    for the full path (dense-to-sparse conversion, reordering, symbolic
    analysis, full LU factorization, handle setup) are executed exactly when
    refactorization is needed, and the dirty flag is cleared afterwards. *)
Definition listed_full_path_steps : list call :=
  [ cusparseDdense2csr; cusolverSpXcsrsymrcmHost; cusolverSpXcsrluAnalysisHost;
    cusolverSpDcsrluFactorHost; cusolverRfSetupHost ].

Definition full_path_exactly_when_needed (s : state) (a : answers) : Prop :=
  (forall c, In c listed_full_path_steps ->
             (In c (calls (solve s a)) <-> refactor_needed s a = true))
  /\ m_constraints_dirty (final (solve s a)) = false.

(** Example states and answers: a solver whose factorization is up to date
    for a matrix with four nonzeros. *)
Definition clean_state : state := mk_state false 4 true.
Definition same_pattern : answers := mk_answers 4 (-1).
Definition singular_matrix : answers := mk_answers 1 0.
Definition regular_matrix : answers := mk_answers 1 (-1).

End Solver.

(** ** Concrete inputs *)

(** The worked example of the documentation of [remove_particles]: five
    particles, of which 1 and 2 are flagged for migration. *)
Module Scenario.

Import MPCD.

Definition N : nat := 5.
Definition mask : Z := 1%Z.
Definition flags : darray Z := of_list 0%Z [0; 1; 1; 0; 0]%Z.

Definition position (i : nat) : Scalar4 :=
  make_scalar4 (inject_Z (Z.of_nat i)) 0 0 0.
Definition velocity (i : nat) : Scalar4 :=
  make_scalar4 0 (inject_Z (Z.of_nat i)) 0 1.
Definition tag_of (i : nat) : nat := 100 + i.

Definition record_of (i : nat) : pdata_element :=
  mk_pdata_element (position i) (velocity i) (tag_of i) (flags i).

Definition blank4 : Scalar4 := make_scalar4 0 0 0 0.
Definition blank : pdata_element := mk_pdata_element blank4 blank4 0 0%Z.

Definition marked : mark_mem :=
  mark_removed_particles 1024 (mk_mark_mem (fun _ => 7%Z) (fun _ => 0)) flags mask N 256.

Definition partitioned : darray nat * nat :=
  partition_particles (d_tmp_id marked) (d_tmp_flag marked) (fun _ => 0) N.

Definition removed : remove_mem :=
  remove_particles
    (mk_remove_mem (fun _ => blank) (fun _ => blank4) (fun _ => blank4)
       (fun _ => 0) (fun _ => 0%Z))
    (snd partitioned) position velocity tag_of flags (fst partitioned) N.

(** Local arrays of a receiving domain that already holds two particles. *)
Definition receiver : pdata_mem :=
  mk_pdata_mem (fun _ => blank4) (fun _ => blank4) (fun _ => 0) (fun _ => 0%Z).

End Scenario.

(** Two constrained pairs, 0-1 and 2-3; only particles 0 and 1 are local. *)
Module Dimers.

Import Constraint.

Definition n_constraint : nat := 2.
Definition nptl_local : nat := 2.
Definition graph : list (nat * nat) := [(0, 1); (2, 3)].

Definition d_pos : darray Scalar4 :=
  of_list (make_scalar4 0 0 0 0)
    [ make_scalar4 0 0 0 0; make_scalar4 1 0 0 0;
      make_scalar4 0 4 0 0; make_scalar4 0 5 0 0 ].
Definition d_vel : darray Scalar4 := fun _ => make_scalar4 0 0 0 1.
Definition d_netforce : darray Scalar4 :=
  of_list (make_scalar4 0 0 0 0) [ make_scalar4 1 0 0 0 ].

Definition d_gpu_clist : darray group_storage :=
  of_list (mk_group_storage 0 0)
    [ mk_group_storage 1 0; mk_group_storage 0 0;
      mk_group_storage 3 1; mk_group_storage 2 1 ].
Definition gpu_clist_indexer (i j : nat) : nat := j * 4 + i.
Definition d_gpu_n_constraints : darray nat := of_list 0 [1; 1; 1; 1].
Definition d_gpu_cpos : darray nat := of_list 0 [0; 1; 0; 1].
Definition d_group_typeval : darray typeval_union := fun _ => mk_typeval 2.
Definition deltaT : Q := (1 # 2)%Q.
Definition box : BoxDim := mk_box (fun r => r).
Definition d_lagrange : darray Q := of_list 0%Q [3; 5]%Q.

(** Arbitrary previous contents of the output arrays. *)
Definition stale : fill_mem := mk_fill_mem (fun _ => 9%Q) (fun _ => 9%Q).

Definition filled : fill_mem :=
  gpu_fill_matrix_vector n_constraint nptl_local d_pos d_vel d_netforce
    d_gpu_clist gpu_clist_indexer d_gpu_n_constraints d_gpu_cpos
    d_group_typeval deltaT box 1024 stale 32.

Definition stores : list write :=
  launch_writes n_constraint nptl_local d_pos d_vel d_netforce
    d_gpu_clist gpu_clist_indexer d_gpu_n_constraints d_gpu_cpos
    d_group_typeval deltaT box 32.

End Dimers.

(** ** The constraint matrix seen from the graph *)

Module ConstraintGraph.

Import Constraint.
Local Open Scope Q_scope.

Section Entries.

Variables d_pos d_vel : darray Scalar4.
Variable deltaT : Q.
Variable box : BoxDim.
Variable cs : list (nat * nat).

(** The value [mat_element] takes for the pair of constraints [n] and [m] of
    the list [cs], computed from the endpoints the list gives them. *)
Definition graph_entry (n m : nat) : Q :=
  match nth_error cs n, nth_error cs m with
  | Some ab, Some mab =>
      mat_element (fst ab) (snd ab) (fst mab) (snd mab)
        (predicted d_pos d_vel deltaT box ab) (separation d_pos box mab)
        (s4w (d_vel (fst ab))) (s4w (d_vel (snd ab)))
  | _, _ => 0
  end.

End Entries.

(** The memory the kernel starts from: both arrays zeroed over the extent of
    the system. *)
Definition zeroed (n_constraint : nat) (m : fill_mem) : fill_mem :=
  mk_fill_mem (memset0 (d_matrix m) (n_constraint * n_constraint))
              (memset0 (d_vec m) n_constraint).

End ConstraintGraph.

(** Two particles at rest at their target distance, with the device table of
    the first pair of [Dimers]. *)
Module AtRest.

Import Constraint.

Definition d_pos : darray Scalar4 :=
  of_list (make_scalar4 0 0 0 0) [ make_scalar4 0 0 0 0; make_scalar4 2 0 0 0 ].
Definition d_vel : darray Scalar4 := fun _ => make_scalar4 3 0 0 1.
Definition d_netforce : darray Scalar4 := fun _ => make_scalar4 0 0 0 0.


End AtRest.

(** A chain of three local particles of masses 1, 2 and 3, at rest:
    constraint 0 joins particles 0 and 1, constraint 1 joins 1 and 2. *)
Module Chain.

Import Constraint.

Definition n_constraint : nat := 2.
Definition nptl_local : nat := 3.
Definition graph : list (nat * nat) := [(0, 1); (1, 2)].

Definition d_pos : darray Scalar4 :=
  of_list (make_scalar4 0 0 0 0)
    [ make_scalar4 0 0 0 0; make_scalar4 1 0 0 0; make_scalar4 2 1 0 0 ].
Definition d_vel : darray Scalar4 :=
  fun i => make_scalar4 0 0 0 (inject_Z (Z.of_nat (S i))).
Definition d_netforce : darray Scalar4 := fun _ => make_scalar4 0 0 0 0.

Definition gpu_clist_indexer (i j : nat) : nat := j * 3 + i.
Definition d_gpu_clist : darray group_storage :=
  of_list (mk_group_storage 0 0)
    [ mk_group_storage 1 0; mk_group_storage 0 0; mk_group_storage 1 1;
      mk_group_storage 0 0; mk_group_storage 2 1 ].
Definition d_gpu_n_constraints : darray nat := of_list 0 [1; 2; 1].
Definition d_gpu_cpos : darray nat := of_list 0 [0; 1; 1; 0; 0].
Definition d_group_typeval : darray typeval_union := fun _ => mk_typeval 1.
Definition deltaT : Q := (1 # 2)%Q.
Definition box : BoxDim := mk_box (fun r => r).

Definition stores : list write :=
  launch_writes n_constraint nptl_local d_pos d_vel d_netforce
    d_gpu_clist gpu_clist_indexer d_gpu_n_constraints d_gpu_cpos
    d_group_typeval deltaT box 32.

(** What thread 0 stores for the pair (constraint 0, constraint 1) and what
    thread 2 stores for the pair (constraint 1, constraint 0). *)
Definition upper : Q :=
  matrix_value d_pos d_vel d_gpu_clist gpu_clist_indexer d_gpu_cpos deltaT box
    0 0 1.
Definition lower : Q :=
  matrix_value d_pos d_vel d_gpu_clist gpu_clist_indexer d_gpu_cpos deltaT box
    2 0 0.

End Chain.

(** ** The life of the solver object *)

Module Lifetime.

Import Solver.

(** The three cuSPARSE matrix descriptors the object owns. *)
Inductive descriptor : Type := descr_A | descr_L | descr_U.

(** The library calls of the constructor and of the destructor, and the calls
    made by the solves in between. *)
Inductive step : Type :=
| cusparseCreate
| cusparseCreateMatDescr (d : descriptor)
| cusparseSetMatType (d : descriptor)
| cusparseSetMatIndexBase (d : descriptor)
| cusparseSetMatDiagType (d : descriptor) (unit_diagonal : bool)
| connectGroupsDirty
| solving (c : call)
| cusparseDestroy
| cusparseDestroyMatDescr (d : descriptor)
| cusolverRfDestroy
| disconnect.

(** [ForceDistanceConstraintGPU::ForceDistanceConstraintGPU]: the calls it
    makes; the members are initialized as in [constructed]. *)
Definition constructor : list step :=
  [ cusparseCreate;
    cusparseCreateMatDescr descr_A; cusparseSetMatType descr_A;
    cusparseSetMatIndexBase descr_A; cusparseSetMatDiagType descr_A false;
    cusparseCreateMatDescr descr_L; cusparseSetMatType descr_L;
    cusparseSetMatIndexBase descr_L; cusparseSetMatDiagType descr_L true;
    cusparseCreateMatDescr descr_U; cusparseSetMatType descr_U;
    cusparseSetMatIndexBase descr_U; cusparseSetMatDiagType descr_U false;
    connectGroupsDirty ].

(** [ForceDistanceConstraintGPU::~ForceDistanceConstraintGPU]. *)
Definition destructor (s : state) : list step :=
  [ cusparseDestroy; cusparseDestroyMatDescr descr_A ]
  ++ (if m_cusolver_rf_initialized s then [ cusolverRfDestroy ] else [])
  ++ [ cusparseDestroyMatDescr descr_L; cusparseDestroyMatDescr descr_U;
       disconnect ].

(** A run: one call of [computeConstraintForces] per time step, until one of
    them throws. *)
Fixpoint timesteps (l : list answers) : M unit :=
  match l with
  | [] => ret tt
  | a :: l' => bind (computeConstraintForces a) (fun _ => timesteps l')
  end.

Definition run (s : state) (l : list answers) : outcome unit := timesteps l s [].

(** An outcome with earlier calls put in front of its record. *)
Definition after {A : Type} (tr : list call) (o : outcome A) : outcome A :=
  match o with
  | Returned a s t => Returned a s (tr ++ t)
  | Thrown what s t => Thrown what s (tr ++ t)
  end.

(** The object from its construction to its destruction, with a run in
    between. *)
Definition life (l : list answers) : list step :=
  constructor
  ++ map solving (calls (run constructed l))
  ++ destructor (final (run constructed l)).

(** Equality of calls is decidable, so that occurrences can be counted. *)
Definition call_eq_dec (x y : call) : {x = y} + {x <> y}.
Proof. decide equality. apply string_dec. Defined.

Definition step_eq_dec (x y : step) : {x = y} + {x <> y}.
Proof.
  decide equality; try apply Bool.bool_dec; try apply call_eq_dec;
    decide equality.
Defined.

Definition calls_of (c : call) (l : list call) : nat := count_occ call_eq_dec l c.
Definition steps_of (x : step) (l : list step) : nat := count_occ step_eq_dec l x.

End Lifetime.

(** ** The evaluator factory *)

Module EvalFactory.

(** What the compiler and the JIT answer to the constructor: whether loading
    the program symbols reports an error, whether the code compiles to a
    module and what the compiler wrote to the stream, whether the JIT is
    created, whether adding the module reports an error, and the address of
    each symbol the JIT can find. *)
Record toolchain : Type := mk_toolchain
  { LoadLibraryPermanently : bool;
    compileCode : bool;
    sstream : string;
    Create : bool;
    addModule : bool;
    findSymbol : string -> option Z }.

(** The members the constructor assigns; [m_eval] is a pointer, with 0 for
    [NULL], and a member that was not assigned is [None]. *)
Record members : Type := mk_members
  { m_eval : Z;
    m_alpha : option Z;
    m_alpha_union : option Z;
    m_error_msg : string }.

Definition failed (msg : string) : members := mk_members 0 None None msg.

(** [EvalFactory::EvalFactory]. *)
Definition EvalFactory (t : toolchain) : members :=
  if LoadLibraryPermanently t
  then failed ("Error loading program symbols." ++ Solver.newline)%string
  else if negb (compileCode t) then failed (sstream t)
  else if negb (Create t) then failed "Could not initialize JIT."
  else if addModule t then failed "Could not add JIT module."
  else
    match findSymbol t "eval"%string with
    | None => failed "Could not find eval function in LLVM module."
    | Some eval =>
      match findSymbol t "param_array"%string with
      | None => failed "Could not find alpha array in LLVM module."
      | Some alpha =>
        match findSymbol t "alpha_union"%string with
        | None => failed "Could not find alpha_union array in LLVM module."
        | Some alpha_union =>
          mk_members eval (Some alpha) (Some alpha_union) EmptyString
        end
      end
    end.

(** Every step of the constructor succeeds. *)
Definition all_succeed (t : toolchain) : Prop :=
  LoadLibraryPermanently t = false /\ compileCode t = true /\ Create t = true
  /\ addModule t = false
  /\ findSymbol t "eval"%string <> None /\ findSymbol t "param_array"%string <> None
  /\ findSymbol t "alpha_union"%string <> None.

(** Example answers: a module that defines [eval] and [param_array] only, and
    one that defines all three symbols. *)
Definition symbols (l : list (string * Z)) (name : string) : option Z :=
  match find (fun e => String.eqb (fst e) name) l with
  | Some e => Some (snd e)
  | None => None
  end.

Definition old_module : toolchain :=
  mk_toolchain false true EmptyString true false
    (symbols [("eval"%string, 4096%Z); ("param_array"%string, 8192%Z)]).

Definition full_module : toolchain :=
  mk_toolchain false true EmptyString true false
    (symbols [("eval"%string, 4096%Z); ("param_array"%string, 8192%Z);
              ("alpha_union"%string, 12288%Z)]).

End EvalFactory.

(** * Properties *)

(** ** Kernel launches *)

Lemma upd_same {A : Type} (a : darray A) (i : nat) (v : A) : upd a i v i = v.
Proof. unfold upd. now rewrite Nat.eqb_refl. Qed.

Lemma upd_other {A : Type} (a : darray A) (i j : nat) (v : A) :
  j <> i -> upd a i v j = a j.
Proof. intros H. unfold upd. now apply Nat.eqb_neq in H as ->. Qed.

Lemma wrap32_small (n : nat) :
  (Z.of_nat n < 2 ^ 32)%Z -> wrap32 n = n.
Proof.
  intros H. unfold wrap32.
  rewrite N.mod_small by (change 4294967296%N with (Z.to_N (2 ^ 32)); lia).
  apply Nat2N.id.
Qed.

Lemma grid_covers (N block_size : nat) :
  0 < block_size -> N <= (N / block_size + 1) * block_size.
Proof.
  intros H.
  pose proof (Nat.mul_succ_div_gt N block_size ltac:(lia)) as G.
  rewrite Nat.add_1_r, Nat.mul_comm. lia.
Qed.

(** Threads beyond the guard do nothing, so a launch that covers [N] threads
    is the run of the first [N] thread bodies. *)
Lemma launch_guarded {M : Type} (thread : nat -> M -> M) (N n_blocks block_size : nat)
    (mem : M) :
  (forall idx m, N <= idx -> thread idx m = m) ->
  N <= n_blocks * block_size ->
  launch n_blocks block_size thread mem
  = fold_left (fun m idx => thread idx m) (seq 0 N) mem.
Proof.
  intros Hguard Hcover. unfold launch.
  replace (n_blocks * block_size) with (N + (n_blocks * block_size - N)) by lia.
  rewrite seq_app, fold_left_app. simpl.
  generalize (fold_left (fun m idx => thread idx m) (seq 0 N) mem) as m0.
  generalize (n_blocks * block_size - N) as k.
  assert (G : forall k s m0, N <= s ->
            fold_left (fun m idx => thread idx m) (seq s k) m0 = m0).
  { induction k as [|k IH]; intros s m0 Hs; simpl; [reflexivity|].
    rewrite Hguard by lia. apply IH. lia. }
  intros k m0. apply G. lia.
Qed.

Lemma fold_seq_S {M : Type} (f : M -> nat -> M) (n : nat) (m : M) :
  fold_left f (seq 0 (S n)) m = f (fold_left f (seq 0 n) m) n.
Proof. rewrite seq_S, fold_left_app. reflexivity. Qed.

(** ** Compaction and append *)

Section MigrationKernels.

Import MPCD.

Variables (d_pos0 d_vel0 : darray Scalar4) (d_tag0 : darray nat) (d_flags0 : darray Z).
Variables (d_scan : darray nat) (n_keep N : nat).

Let element (idx : nat) : pdata_element :=
  let pid := d_scan idx in
  mk_pdata_element (d_pos0 pid) (d_vel0 pid) (d_tag0 pid) (d_flags0 pid).

Let remove_thread (m : remove_mem) (idx : nat) : remove_mem :=
  kernel.remove_particles n_keep d_pos0 d_vel0 d_tag0 d_flags0 d_scan N idx m.

(** After the first [k] threads, every slot of a thread at or beyond
    [n_keep] holds that thread's packed record. *)
Lemma remove_threads_out (m : remove_mem) (k idx : nat) :
  k <= N -> n_keep <= idx -> idx < k ->
  d_out (fold_left remove_thread (seq 0 k) m) (idx - n_keep) = element idx.
Proof.
  induction k as [|k IH]; intros Hk Hkeep Hidx; [lia|].
  rewrite fold_seq_S.
  set (F := fold_left remove_thread (seq 0 k) m) in *.
  unfold remove_thread, kernel.remove_particles.
  destruct (N <=? k) eqn:E; [apply Nat.leb_le in E; lia|].
  destruct (n_keep <=? k) eqn:E'; simpl.
  - apply Nat.leb_le in E'.
    destruct (Nat.eq_dec idx k) as [->|Hne].
    + now rewrite upd_same.
    + rewrite upd_other by lia. apply IH; lia.
  - apply Nat.leb_gt in E'. lia.
Qed.

Lemma remove_particles_out (m : remove_mem) (idx : nat) :
  n_keep <= idx -> idx < N ->
  d_out (remove_particles m n_keep d_pos0 d_vel0 d_tag0 d_flags0 d_scan N)
        (idx - n_keep)
  = element idx.
Proof.
  intros Hkeep Hidx. unfold remove_particles.
  rewrite (launch_guarded _ N).
  - apply (remove_threads_out m N idx); lia.
  - intros i m' Hi. unfold kernel.remove_particles.
    now apply Nat.leb_le in Hi as ->.
  - apply grid_covers. lia.
Qed.

End MigrationKernels.

Section AppendKernel.

Import MPCD.

Variables (old_nparticles num_add_ptls : nat) (d_in : darray pdata_element) (mask : Z).
Hypothesis fits : (Z.of_nat old_nparticles + Z.of_nat num_add_ptls <= 4294967296)%Z.

Let add_thread (m : pdata_mem) (idx : nat) : pdata_mem :=
  kernel.add_particles old_nparticles num_add_ptls d_in mask idx m.

Lemma add_particles_unfold (m : pdata_mem) :
  add_particles old_nparticles num_add_ptls m d_in mask
  = fold_left add_thread (seq 0 num_add_ptls) m.
Proof.
  unfold add_particles. rewrite (launch_guarded _ num_add_ptls).
  - reflexivity.
  - intros i m' Hi. unfold kernel.add_particles.
    now apply Nat.leb_le in Hi as ->.
  - apply grid_covers. lia.
Qed.

(** The first [k] threads leave every cell outside
    [old_nparticles .. old_nparticles + k - 1] as it was. *)
Lemma add_threads_frame (m : pdata_mem) (k i : nat) :
  k <= num_add_ptls ->
  i < old_nparticles \/ old_nparticles + k <= i ->
  let r := fold_left add_thread (seq 0 k) m in
  d_pos r i = d_pos m i /\ d_vel r i = d_vel m i /\
  d_tag r i = d_tag m i /\ d_comm_flags r i = d_comm_flags m i.
Proof.
  induction k as [|k IH]; intros Hk Hi; [simpl; auto|].
  cbv zeta. rewrite fold_seq_S.
  set (F := fold_left add_thread (seq 0 k) m) in *.
  unfold add_thread, kernel.add_particles.
  destruct (num_add_ptls <=? k) eqn:E; [apply Nat.leb_le in E; lia|].
  rewrite wrap32_small by lia. simpl.
  rewrite !upd_other by lia. apply IH; lia.
Qed.

(** After the first [k] threads, cell [old_nparticles + j] holds entry [j] of
    the input buffer, with the masked bits of its flags cleared. *)
Lemma add_threads_written (m : pdata_mem) (k j : nat) :
  k <= num_add_ptls -> j < k ->
  let r := fold_left add_thread (seq 0 k) m in
  d_pos r (old_nparticles + j) = pos (d_in j) /\
  d_vel r (old_nparticles + j) = vel (d_in j) /\
  d_tag r (old_nparticles + j) = tag (d_in j) /\
  d_comm_flags r (old_nparticles + j)
  = Z.land (comm_flag (d_in j)) (kernel.not32 mask).
Proof.
  induction k as [|k IH]; intros Hk Hj; [lia|].
  cbv zeta. rewrite fold_seq_S.
  set (F := fold_left add_thread (seq 0 k) m) in *.
  unfold add_thread, kernel.add_particles.
  destruct (num_add_ptls <=? k) eqn:E; [apply Nat.leb_le in E; lia|].
  rewrite wrap32_small by lia. simpl.
  destruct (Nat.eq_dec j k) as [->|Hne].
  - now rewrite !upd_same.
  - rewrite !upd_other by lia. apply IH; lia.
Qed.

End AppendKernel.

(** Clearing the bits of [mask] in a 32-bit word: [flag & ~mask]. *)
Lemma land_not32 (flag mask : Z) :
  (0 <= flag < 4294967296)%Z ->
  Z.land flag (MPCD.kernel.not32 mask) = Z.ldiff flag mask.
Proof.
  intros Hflag. unfold MPCD.kernel.not32.
  change 4294967296%Z with (2 ^ 32)%Z in *.
  apply Z.bits_inj'. intros b Hb.
  rewrite Z.land_spec, Z.ldiff_spec.
  destruct (Z.ltb_spec b 32).
  - rewrite Z.mod_pow2_bits_low by lia. now rewrite Z.lnot_spec by lia.
  - rewrite Z.mod_pow2_bits_high by lia.
    assert (Z.testbit flag b = false) as ->; [|reflexivity].
    destruct (Z.eq_dec flag 0) as [->|Hnz]; [apply Z.bits_0|].
    apply Z.bits_above_log2; [lia|].
    apply Z.lt_le_trans with 32%Z; [|lia].
    apply Z.log2_lt_pow2; lia.
Qed.

(** ** The partitioner *)

Section Partition.

Import MPCD.

Context {A : Type}.
Variables (d_in : darray A) (d_flags : darray Z) (N : nat).

Let keep (i : nat) : bool := selected d_flags i.
Let scatter (o : darray A) (i : nat) : darray A := upd o (slot d_flags N i) (d_in i).

Lemma keep_sum_S (n : nat) :
  exclusive_sum (keep_bit d_flags) (S n)
  = exclusive_sum (keep_bit d_flags) n + (if keep n then 1 else 0).
Proof. reflexivity. Qed.

Lemma drop_sum_S (n : nat) :
  exclusive_sum (drop_bit d_flags) (S n)
  = exclusive_sum (drop_bit d_flags) n + (if keep n then 0 else 1).
Proof. reflexivity. Qed.

Lemma exclusive_sum_mono (f : nat -> nat) (n n' : nat) :
  n <= n' -> exclusive_sum f n <= exclusive_sum f n'.
Proof. induction 1; simpl; lia. Qed.

Lemma keep_drop_total (n : nat) :
  exclusive_sum (keep_bit d_flags) n + exclusive_sum (drop_bit d_flags) n = n.
Proof.
  induction n as [|n IH]; [reflexivity|].
  rewrite keep_sum_S, drop_sum_S. destruct (keep n); lia.
Qed.

Lemma keep_sum_length (n : nat) :
  exclusive_sum (keep_bit d_flags) n = length (filter keep (seq 0 n)).
Proof.
  induction n as [|n IH]; [reflexivity|].
  rewrite keep_sum_S, seq_S, filter_app, length_app, IH. simpl.
  destruct (keep n); reflexivity.
Qed.

Lemma map_upd_outside (o : darray A) (i : nat) (v : A) (l : list nat) :
  ~ In i l -> map (upd o i v) l = map o l.
Proof.
  intros H. apply map_ext_in. intros j Hj. apply upd_other.
  intros ->. contradiction.
Qed.

(** After the first [n] items are scattered, the kept ones among them fill
    the front of the output in order and the others fill the cells from [K]
    on in order. *)
Lemma scatter_invariant (out : darray A) (n : nat) :
  n <= N ->
  let o := fold_left scatter (seq 0 n) out in
  let K := exclusive_sum (keep_bit d_flags) N in
  map o (seq 0 (exclusive_sum (keep_bit d_flags) n))
  = map d_in (filter keep (seq 0 n))
  /\ map o (seq K (exclusive_sum (drop_bit d_flags) n))
     = map d_in (filter (fun i => negb (keep i)) (seq 0 n)).
Proof.
  induction n as [|n IH]; intros Hn; [split; reflexivity|].
  cbv zeta. rewrite fold_seq_S.
  destruct (IH ltac:(lia)) as [IHk IHd]. cbv zeta in IHk, IHd.
  set (o := fold_left scatter (seq 0 n) out) in *.
  pose proof (exclusive_sum_mono (keep_bit d_flags) (S n) N Hn) as Hmono.
  rewrite keep_sum_S in Hmono.
  rewrite keep_sum_S, drop_sum_S, seq_S, !filter_app, !map_app.
  unfold scatter, slot. fold (keep n). simpl.
  destruct (keep n) eqn:E; simpl.
  - rewrite Nat.add_0_r, Nat.add_1_r, seq_S, map_app. simpl.
    rewrite upd_same, app_nil_r. split.
    + rewrite map_upd_outside by (rewrite in_seq; lia). now rewrite IHk.
    + rewrite map_upd_outside by (rewrite in_seq; lia). exact IHd.
  - rewrite Nat.add_0_r, Nat.add_1_r, seq_S, map_app. simpl.
    rewrite upd_same, app_nil_r. split.
    + rewrite map_upd_outside by (rewrite in_seq; lia). exact IHk.
    + rewrite map_upd_outside by (rewrite in_seq; lia). now rewrite IHd.
Qed.

Lemma Flagged_prefix (out : darray A) :
  prefix (fst (Flagged d_in d_flags out N)) N
  = map d_in (filter keep (seq 0 N) ++ filter (fun i => negb (keep i)) (seq 0 N)).
Proof.
  unfold Flagged, prefix. simpl.
  destruct (scatter_invariant out N (le_n N)) as [Hk Hd]. cbv zeta in Hk, Hd.
  pose proof (keep_drop_total N) as Htot.
  set (K := exclusive_sum (keep_bit d_flags) N) in *.
  set (R := exclusive_sum (drop_bit d_flags) N) in *.
  replace N with (K + R) at 2 by lia.
  rewrite seq_app, !map_app. simpl. fold scatter. now rewrite Hk, Hd.
Qed.

End Partition.

Lemma filter_map_comm {A B : Type} (p : B -> bool) (h : A -> B) (l : list A) :
  filter p (map h l) = map h (filter (fun a => p (h a)) l).
Proof.
  induction l as [|a l IH]; simpl; [reflexivity|].
  destruct (p (h a)); simpl; now rewrite IH.
Qed.

Lemma combine_map_seq {A B : Type} (f : nat -> A) (g : nat -> B) (l : list nat) :
  combine (map f l) (map g l) = map (fun i => (f i, g i)) l.
Proof. induction l as [|a l IH]; simpl; [reflexivity|]. now rewrite IH. Qed.

(** C1. For every keep-array of length [N] the output of the partitioner,
    read as a list, and the count it reports equal the reference stable
    two-way partition of the (id, keep) pairs: the count is the number of
    keep entries, the ids with keep come first in their original order and
    the others follow in their original order. *)
Theorem partition_particles_stable (d_ids d_out : darray nat) (d_flags : darray Z) (N : nat) :
  let keep_array := map (MPCD.selected d_flags) (seq 0 N) in
  let reference := MPCD.stable_partition snd (combine (prefix d_ids N) keep_array) in
  let result := MPCD.partition_particles d_ids d_flags d_out N in
  prefix (fst result) N = map fst (fst reference)
  /\ snd result = snd reference
  /\ snd result = length (filter (fun b : bool => b) keep_array).
Proof.
  cbv zeta.
  pose proof (Flagged_prefix d_ids d_flags N d_out) as Hprefix.
  assert (HK : snd (MPCD.Flagged d_ids d_flags d_out N)
               = length (filter (MPCD.selected d_flags) (seq 0 N))).
  { unfold MPCD.Flagged. cbn [snd]. apply keep_sum_length. }
  unfold MPCD.partition_particles, MPCD.stable_partition.
  cbn [fst snd]. rewrite Hprefix, HK. clear Hprefix HK.
  unfold prefix. rewrite !combine_map_seq.
  rewrite !filter_map_comm, !map_app, !map_map, !length_map. cbn [fst snd].
  repeat split; reflexivity.
Qed.

(** C3. The worked example: five particles with status flags [0,1,1,0,0]
    and mask 1.  The classifier writes the keep-array [1,0,0,1,1] and the
    identity ids, the partitioner reports K = 3 and the permutation
    [0,3,4,1,2], and compaction puts the records of particles 0, 3, 4 into
    local slots 0, 1, 2 and those of particles 1, 2 into slots 0, 1 of the
    outbound buffer. *)
Theorem documented_example :
  let local_slot (r : MPCD.remove_mem) (i : nat) :=
    MPCD.mk_pdata_element (MPCD.d_pos_alt r i) (MPCD.d_vel_alt r i)
      (MPCD.d_tag_alt r i) (MPCD.d_comm_flags_alt r i) in
  prefix (MPCD.d_tmp_flag Scenario.marked) 5 = [1; 0; 0; 1; 1]%Z
  /\ map (MPCD.selected (MPCD.d_tmp_flag Scenario.marked)) (seq 0 5)
     = [true; false; false; true; true]
  /\ prefix (MPCD.d_tmp_id Scenario.marked) 5 = [0; 1; 2; 3; 4]
  /\ snd Scenario.partitioned = 3
  /\ prefix (fst Scenario.partitioned) 5 = [0; 3; 4; 1; 2]
  /\ map (local_slot Scenario.removed) [0; 1; 2] = map Scenario.record_of [0; 3; 4]
  /\ prefix (MPCD.d_out Scenario.removed) 2 = map Scenario.record_of [1; 2].
Proof. vm_compute. repeat split; reflexivity. Qed.

(** C4. Round trip: the record that the remove operation packs for a
    particle, appended by the append operation with migration mask [mask],
    reproduces the particle's position, velocity and tag at the appended
    slot, and its status word with the bits of [mask] cleared. *)
Theorem remove_then_add_roundtrip
    (d_pos0 d_vel0 : darray Scalar4) (d_tag0 : darray nat) (d_flags0 : darray Z)
    (d_scan : darray nat) (n_keep N idx : nat) (alt : MPCD.remove_mem)
    (old_nparticles num_add_ptls : nat) (local : MPCD.pdata_mem) (mask : Z) :
  n_keep <= idx -> idx < N ->
  idx - n_keep < num_add_ptls ->
  (Z.of_nat old_nparticles + Z.of_nat num_add_ptls <= 4294967296)%Z ->
  (0 <= d_flags0 (d_scan idx) < 4294967296)%Z ->
  let p := d_scan idx in
  let packed :=
    MPCD.remove_particles alt n_keep d_pos0 d_vel0 d_tag0 d_flags0 d_scan N in
  let appended :=
    MPCD.add_particles old_nparticles num_add_ptls local (MPCD.d_out packed) mask in
  let slot := old_nparticles + (idx - n_keep) in
  MPCD.d_pos appended slot = d_pos0 p
  /\ MPCD.d_vel appended slot = d_vel0 p
  /\ MPCD.d_tag appended slot = d_tag0 p
  /\ MPCD.d_comm_flags appended slot = Z.land (d_flags0 p) (MPCD.kernel.not32 mask)
  /\ MPCD.d_comm_flags appended slot = Z.ldiff (d_flags0 p) mask.
Proof.
  intros Hkeep Hidx Hslot Hfits Hword. cbv zeta.
  rewrite add_particles_unfold by exact Hfits.
  destruct (add_threads_written old_nparticles num_add_ptls
              (MPCD.d_out (MPCD.remove_particles alt n_keep d_pos0 d_vel0 d_tag0
                             d_flags0 d_scan N))
              mask Hfits local num_add_ptls (idx - n_keep) (le_n _) Hslot)
    as (Hp & Hv & Ht & Hf).
  cbv zeta in Hp, Hv, Ht, Hf.
  rewrite Hp, Hv, Ht, Hf, remove_particles_out by assumption.
  cbn [MPCD.pos MPCD.vel MPCD.tag MPCD.comm_flag].
  repeat split. apply land_not32. exact Hword.
Qed.

Lemma remove_then_add_roundtrip_witness :
  let appended :=
    MPCD.add_particles 2 2 Scenario.receiver (MPCD.d_out Scenario.removed) 1%Z in
  MPCD.d_pos appended 2 = Scenario.position 1
  /\ MPCD.d_vel appended 2 = Scenario.velocity 1
  /\ MPCD.d_tag appended 2 = Scenario.tag_of 1
  /\ MPCD.d_comm_flags appended 2 = Z.land 1 (MPCD.kernel.not32 1)
  /\ MPCD.d_comm_flags appended 2 = Z.ldiff 1 1.
Proof.
  apply (remove_then_add_roundtrip Scenario.position Scenario.velocity
           Scenario.tag_of Scenario.flags (fst Scenario.partitioned)
           (snd Scenario.partitioned) Scenario.N 3 _ 2 2 Scenario.receiver 1%Z).
  - vm_compute. lia.
  - vm_compute. lia.
  - vm_compute. lia.
  - vm_compute. discriminate.
  - vm_compute. split; [discriminate | reflexivity].
Defined.

(** C9. Frame property of append: with old local count K and an inbound
    buffer of length M (K + M addressable by a 32-bit index), the append
    operation leaves every position, velocity, tag and status entry outside
    K .. K + M - 1, in particular every entry below K, unchanged. *)
Theorem add_particles_frame (old_nparticles num_add_ptls : nat)
    (local : MPCD.pdata_mem) (d_in : darray MPCD.pdata_element) (mask : Z) (i : nat) :
  (Z.of_nat old_nparticles + Z.of_nat num_add_ptls <= 4294967296)%Z ->
  i < old_nparticles \/ old_nparticles + num_add_ptls <= i ->
  let appended := MPCD.add_particles old_nparticles num_add_ptls local d_in mask in
  MPCD.d_pos appended i = MPCD.d_pos local i
  /\ MPCD.d_vel appended i = MPCD.d_vel local i
  /\ MPCD.d_tag appended i = MPCD.d_tag local i
  /\ MPCD.d_comm_flags appended i = MPCD.d_comm_flags local i.
Proof.
  intros Hfits Hi. cbv zeta. rewrite add_particles_unfold by exact Hfits.
  apply (add_threads_frame old_nparticles num_add_ptls d_in mask Hfits local
           num_add_ptls i (le_n _) Hi).
Qed.

Lemma add_particles_frame_witness :
  let appended :=
    MPCD.add_particles 2 2 Scenario.receiver (MPCD.d_out Scenario.removed) 1%Z in
  MPCD.d_pos appended 1 = MPCD.d_pos Scenario.receiver 1
  /\ MPCD.d_vel appended 1 = MPCD.d_vel Scenario.receiver 1
  /\ MPCD.d_tag appended 1 = MPCD.d_tag Scenario.receiver 1
  /\ MPCD.d_comm_flags appended 1 = MPCD.d_comm_flags Scenario.receiver 1.
Proof.
  apply (add_particles_frame 2 2 Scenario.receiver (MPCD.d_out Scenario.removed)
           1%Z 1).
  - vm_compute. discriminate.
  - left. lia.
Defined.

(** ** The solve pipeline *)

Section Pipeline.

Import Solver.
Local Open Scope Z_scope.

(** The two tests of the pipeline agree with [refactor_needed]. *)
Lemma changed_or_dirty (nnz nn : Z) (dirty : bool) :
  negb (Z.lor (Z.b2z (negb (nnz =? nn))) (Z.b2z dirty) =? 0)
  = negb (nnz =? nn) || dirty.
Proof. destruct (nnz =? nn), dirty; reflexivity. Qed.

(** One solve in closed form. *)
Lemma solve_eq (s : state) (a : answers) :
  solve s a
  = if refactor_needed s a
    then if 0 <=? singularity a then aborted_solve s a else full_solve s a
    else fast_solve s a.
Proof.
  destruct s as [dirty nnz rf], a as [nn sing].
  unfold refactor_needed, aborted_solve, full_solve, fast_solve, solved,
    handle_creation_calls.
  cbv [solve computeConstraintForces gpu_dense2sparse bind get put ret emit
       m_nnz_tot m_constraints_dirty m_cusolver_rf_initialized new_nnz
       singularity app conversion_calls].
  rewrite changed_or_dirty.
  destruct (negb (nnz =? nn) || dirty); [|reflexivity].
  cbv [full_factorization bind get put ret emit throw singularity app
       m_nnz_tot m_constraints_dirty m_cusolver_rf_initialized].
  destruct (0 <=? sing); [reflexivity|].
  destruct rf; reflexivity.
Qed.

Ltac in_calls := simpl; repeat (first [left; reflexivity | right]).

Ltac not_in_calls :=
  let H := fresh "H" in
  intros H; simpl in H;
  repeat (destruct H as [H|H]; [discriminate H|]); exact H.

(** Membership of a call in the record of a solve, path by path. *)
Lemma analysis_in_calls (s : state) (a : answers) (c : call) :
  In c analysis_calls ->
  (In c (calls (fast_solve s a)) <-> False)
  /\ In c (calls (aborted_solve s a)) /\ In c (calls (full_solve s a)).
Proof.
  intros Hc. destruct s as [dirty nnz [|]];
  simpl in Hc; repeat (destruct Hc as [<-|Hc]; [|]); try contradiction;
  (split; [split; [not_in_calls | contradiction] | split; in_calls]).
Qed.

Lemma extraction_in_calls (s : state) (a : answers) (c : call) :
  In c (extraction_calls ++ setup_calls) ->
  (In c (calls (fast_solve s a)) <-> False)
  /\ (In c (calls (aborted_solve s a)) <-> False)
  /\ In c (calls (full_solve s a)).
Proof.
  intros Hc. destruct s as [dirty nnz [|]];
  simpl in Hc; repeat (destruct Hc as [<-|Hc]; [|]); try contradiction;
  (split; [split; [not_in_calls | contradiction]
          | split; [split; [not_in_calls | contradiction] | in_calls]]).
Qed.

(** C5. On the full-factorization path a fatal error with the message
    "Singular constraint matrix." is raised if and only if the zero-pivot
    check reports a pivot index >= 0.  On that error an exception is thrown
    and neither factor extraction nor the solve is performed; without a zero
    pivot the zero-pivot check is followed by the extraction of the
    factors. *)
Theorem singular_matrix_aborts (s : state) (a : answers) :
  refactor_needed s a = true ->
  let r := solve s a in
  (thrown r = true <-> 0 <= singularity a)
  /\ (In (msg_error "Singular constraint matrix.") (calls r) <-> 0 <= singularity a)
  /\ r = (if 0 <=? singularity a then aborted_solve s a else full_solve s a)
  /\ (0 <= singularity a ->
      ~ In cusolverSpDcsrluExtractHost (calls r) /\ ~ In cusolverRfSolve (calls r))
  /\ (singularity a < 0 ->
      exists before after,
        calls r = before ++ cusolverSpDcsrluZeroPivotHost
                         :: cusolverSpXcsrluNnzHost
                         :: cusolverSpDcsrluExtractHost :: after).
Proof.
  intros Hneeded. cbv zeta. rewrite solve_eq, Hneeded.
  destruct (Z.leb_spec 0 (singularity a)) as [Hs|Hs].
  - split; [split; [intros _; assumption | reflexivity]|].
    split; [split; [intros _; assumption | intros _; in_calls]|].
    split; [reflexivity|].
    split; [|intros Hneg; lia].
    intros _. split; not_in_calls.
  - split; [split; [discriminate | intros Hpos; lia]|].
    split; [split; [|intros Hpos; lia]|].
    { destruct s as [dirty nnz [|]]; intros H; exfalso; revert H; not_in_calls. }
    split; [reflexivity|].
    split; [intros Hpos; lia|].
    intros _.
    exists [ cusparseDnnz; cusparseDdense2csr; msg_notice; cusolverSpCreate;
             cusolverSpXcsrsymrcmHost; cusolverSpXcsrperm_bufferSizeHost;
             cusolverSpXcsrpermHost; cusolverSpCreateCsrluInfoHost;
             cusolverSpXcsrluAnalysisHost; cusolverSpDcsrluBufferInfoHost;
             cusolverSpDcsrluFactorHost ].
    eexists. reflexivity.
Qed.

Lemma singular_matrix_aborts_witness :
  let r := solve constructed singular_matrix in
  (thrown r = true <-> 0 <= singularity singular_matrix)
  /\ (In (msg_error "Singular constraint matrix.") (calls r)
      <-> 0 <= singularity singular_matrix)
  /\ r = (if 0 <=? singularity singular_matrix
          then aborted_solve constructed singular_matrix
          else full_solve constructed singular_matrix)
  /\ (0 <= singularity singular_matrix ->
      ~ In cusolverSpDcsrluExtractHost (calls r) /\ ~ In cusolverRfSolve (calls r))
  /\ (singularity singular_matrix < 0 ->
      exists before after,
        calls r = before ++ cusolverSpDcsrluZeroPivotHost
                         :: cusolverSpXcsrluNnzHost
                         :: cusolverSpDcsrluExtractHost :: after).
Proof.
  apply (singular_matrix_aborts constructed singular_matrix). reflexivity.
Defined.

(** C6, as the code has it.  Every solve starts with the dense-to-sparse
    conversion, stores the new nonzero count and clears the dirty flag.  The
    steps of the full path up to the zero-pivot check run exactly when the
    new nonzero count differs from the stored one or the dirty flag was set;
    factor extraction and handle setup run exactly when, in addition, no
    zero pivot is reported, and are followed by the fast path.  Otherwise
    the conversion is followed by the fast path alone (reset values, numeric
    refactorization, copy of the right-hand side, triangular solve, force
    writeback). *)
Theorem solve_paths (s : state) (a : answers) :
  let r := solve s a in
  (exists rest, calls r = conversion_calls ++ rest)
  /\ m_constraints_dirty (final r) = false
  /\ m_nnz_tot (final r) = new_nnz a
  /\ (forall c, In c analysis_calls ->
        (In c (calls r) <-> refactor_needed s a = true))
  /\ (forall c, In c (extraction_calls ++ setup_calls) ->
        (In c (calls r) <-> refactor_needed s a = true /\ singularity a < 0))
  /\ r = (if refactor_needed s a
          then if 0 <=? singularity a then aborted_solve s a else full_solve s a
          else fast_solve s a).
Proof.
  cbv zeta. rewrite solve_eq.
  destruct (refactor_needed s a) eqn:Hn;
    [destruct (Z.leb_spec 0 (singularity a)) as [Hs|Hs]|];
    (split; [eexists; reflexivity|]);
    (split; [reflexivity|]); (split; [reflexivity|]);
    (split; [|split; [|reflexivity]]); intros c Hc.
  - split; [reflexivity|]. intros _.
    exact (proj1 (proj2 (analysis_in_calls s a c Hc))).
  - pose proof (extraction_in_calls s a c Hc) as (_ & Hab & _).
    split; [intros H'; apply Hab in H'; contradiction | intros [_ H']; lia].
  - split; [reflexivity|]. intros _.
    exact (proj2 (proj2 (analysis_in_calls s a c Hc))).
  - split; [intros _; split; [reflexivity | assumption]|]. intros _.
    exact (proj2 (proj2 (extraction_in_calls s a c Hc))).
  - pose proof (analysis_in_calls s a c Hc) as (Hf & _).
    split; [intros H'; apply Hf in H'; contradiction | discriminate].
  - pose proof (extraction_in_calls s a c Hc) as (Hf & _).
    split; [intros H'; apply Hf in H'; contradiction | intros [H' _]; discriminate].
Qed.

(** C6, as the spec states it, fails: with an up-to-date factorization and an
    unchanged nonzero count the dense-to-sparse conversion is executed all
    the same. *)
Lemma conversion_runs_on_fast_path :
  ~ full_path_exactly_when_needed clean_state same_pattern.
Proof.
  intros [H _].
  assert (Hin : In cusparseDdense2csr listed_full_path_steps) by in_calls.
  apply H in Hin. destruct Hin as [Hin _].
  assert (Hrun : In cusparseDdense2csr (calls (solve clean_state same_pattern)))
    by (vm_compute; auto).
  apply Hin in Hrun. vm_compute in Hrun. discriminate.
Qed.

End Pipeline.

(** ** Stores of the fill kernel *)

Section Stores.

Import Constraint.
Local Open Scope Q_scope.

Lemma apply_writes_snoc (l : list write) (w : write) (m : fill_mem) :
  apply_writes (l ++ [w]) m = apply_write (apply_writes l m) w.
Proof. unfold apply_writes. now rewrite fold_left_app. Qed.

Lemma last_mat_snoc (c : nat) (l : list write) (w : write) :
  last_mat c (l ++ [w])
  = match w with
    | MatW c' v => if (c' =? c)%nat then Some v else last_mat c l
    | VecW _ _ => last_mat c l
    end.
Proof. unfold last_mat. now rewrite fold_left_app. Qed.

Lemma last_vec_snoc (n : nat) (l : list write) (w : write) :
  last_vec n (l ++ [w])
  = match w with
    | VecW n' v => if (n' =? n)%nat then Some v else last_vec n l
    | MatW _ _ => last_vec n l
    end.
Proof. unfold last_vec. now rewrite fold_left_app. Qed.

(** A cell of the matrix holds the value stored last, or its old value. *)
Lemma d_matrix_apply_writes (l : list write) (m : fill_mem) (c : nat) :
  d_matrix (apply_writes l m) c
  = match last_mat c l with Some v => v | None => d_matrix m c end.
Proof.
  induction l as [|w l IH] using rev_ind; [reflexivity|].
  rewrite apply_writes_snoc, last_mat_snoc.
  destruct w as [c' v|n' v]; simpl; [|exact IH].
  unfold upd. rewrite (Nat.eqb_sym c c').
  destruct (c' =? c)%nat; [reflexivity | exact IH].
Qed.

Lemma d_vec_apply_writes (l : list write) (m : fill_mem) (n : nat) :
  d_vec (apply_writes l m) n
  = match last_vec n l with Some v => v | None => d_vec m n end.
Proof.
  induction l as [|w l IH] using rev_ind; [reflexivity|].
  rewrite apply_writes_snoc, last_vec_snoc.
  destruct w as [c' v|n' v]; simpl; [exact IH|].
  unfold upd. rewrite (Nat.eqb_sym n n').
  destruct (n' =? n)%nat; [reflexivity | exact IH].
Qed.

Lemma last_mat_in (c : nat) (l : list write) (v : Q) :
  last_mat c l = Some v -> In (MatW c v) l.
Proof.
  induction l as [|w l IH] using rev_ind; [discriminate|].
  rewrite last_mat_snoc, in_app_iff. destruct w as [c' v'|n' v'].
  - destruct (c' =? c)%nat eqn:E.
    + apply Nat.eqb_eq in E as ->. intros [= ->]. right. now left.
    + intros H. left. now apply IH.
  - intros H. left. now apply IH.
Qed.

Lemma last_vec_in (n : nat) (l : list write) (v : Q) :
  last_vec n l = Some v -> In (VecW n v) l.
Proof.
  induction l as [|w l IH] using rev_ind; [discriminate|].
  rewrite last_vec_snoc, in_app_iff. destruct w as [c' v'|n' v'].
  - intros H. left. now apply IH.
  - destruct (n' =? n)%nat eqn:E.
    + apply Nat.eqb_eq in E as ->. intros [= ->]. right. now left.
    + intros H. left. now apply IH.
Qed.



Lemma fold_left_flat_map {A B M : Type} (f : M -> B -> M) (g : A -> list B)
    (l : list A) (m : M) :
  fold_left (fun m x => fold_left f (g x) m) l m = fold_left f (flat_map g l) m.
Proof.
  revert m. induction l as [|a l IH]; intros m; simpl; [reflexivity|].
  now rewrite fold_left_app, IH.
Qed.

End Stores.

Section FillKernel.

Import Constraint.
Local Open Scope Q_scope.

Variable n_constraint : nat.
Variable nptl_local : nat.
Variables d_pos d_vel d_netforce : darray Scalar4.
Variable d_gpu_clist : darray group_storage.
Variable gpu_clist_indexer : nat -> nat -> nat.
Variable d_gpu_n_constraints : darray nat.
Variable d_gpu_cpos : darray nat.
Variable d_group_typeval : darray typeval_union.
Variable deltaT : Q.
Variable box : BoxDim.

Local Abbreviation thread_writes' :=
  (thread_writes n_constraint nptl_local d_pos d_vel d_netforce d_gpu_clist
     gpu_clist_indexer d_gpu_n_constraints d_gpu_cpos d_group_typeval deltaT box).
Local Abbreviation outer_writes' :=
  (outer_writes n_constraint nptl_local d_pos d_vel d_netforce d_gpu_clist
     gpu_clist_indexer d_gpu_n_constraints d_gpu_cpos d_group_typeval deltaT box).
Local Abbreviation matrix_cell' :=
  (matrix_cell n_constraint d_gpu_clist gpu_clist_indexer).
Local Abbreviation launch_writes' :=
  (launch_writes n_constraint nptl_local d_pos d_vel d_netforce d_gpu_clist
     gpu_clist_indexer d_gpu_n_constraints d_gpu_cpos d_group_typeval deltaT box).
Local Abbreviation fill' :=
  (gpu_fill_matrix_vector n_constraint nptl_local d_pos d_vel d_netforce
     d_gpu_clist gpu_clist_indexer d_gpu_n_constraints d_gpu_cpos
     d_group_typeval deltaT box).
Local Abbreviation other' idx cidx := (idx_0 (d_gpu_clist (gpu_clist_indexer idx cidx))).
Local Abbreviation constraint' idx cidx := (idx_1 (d_gpu_clist (gpu_clist_indexer idx cidx))).

(** The memory after the host function is the zeroed memory with the stores
    of the launch applied. *)
Lemma fill_is_apply_writes (max_block_size block_size : nat) (m : fill_mem) :
  let run_block_size := Nat.min block_size max_block_size in
  fill' max_block_size m block_size
  = apply_writes
      (launch_writes' ((nptl_local / run_block_size + 1) * run_block_size)%nat)
      (mk_fill_mem (memset0 (d_matrix m) (n_constraint * n_constraint))
                   (memset0 (d_vec m) n_constraint)).
Proof.
  cbv zeta. unfold gpu_fill_matrix_vector, launch, gpu_fill_matrix_vector_kernel,
    launch_writes, apply_writes.
  now rewrite <- fold_left_flat_map.
Qed.


(** Where a store of a launch comes from. *)
Lemma in_launch_writes (T : nat) (w : write) :
  In w (launch_writes' T) ->
  exists idx cidx_i,
    (idx < nptl_local)%nat /\ (cidx_i < d_gpu_n_constraints idx)%nat
    /\ In w (outer_writes' idx cidx_i).
Proof.
  unfold launch_writes. rewrite in_flat_map. intros (idx & _ & Hw).
  unfold thread_writes in Hw.
  destruct (nptl_local <=? idx)%nat eqn:E; [contradiction|].
  apply Nat.leb_gt in E. apply in_flat_map in Hw as (cidx_i & Hc & Hw).
  apply in_seq in Hc. exists idx, cidx_i. repeat split; [lia | lia | exact Hw].
Qed.

Lemma in_outer_writes_mat (idx cidx_i c : nat) (v : Q) :
  In (MatW c v) (outer_writes' idx cidx_i) ->
  exists cidx_j,
    (cidx_j < d_gpu_n_constraints (other' idx cidx_i))%nat
    /\ c = matrix_cell' idx cidx_i cidx_j.
Proof.
  unfold outer_writes. rewrite in_app_iff, in_map_iff. intros [(j & Hj & Hin)|H].
  - apply in_seq in Hin. exists j. split; [lia|].
    unfold inner_write in Hj. now injection Hj as <- _.
  - destruct (vec_guard _ _ _ _ _ _);
      simpl in H; [destruct H as [H|[]]; discriminate | contradiction].
Qed.

Lemma in_outer_writes_vec (idx cidx_i n : nat) (v : Q) :
  In (VecW n v) (outer_writes' idx cidx_i) ->
  n = constraint' idx cidx_i
  /\ v = vec_element d_pos d_vel d_netforce deltaT box
           (ordered d_gpu_clist gpu_clist_indexer d_gpu_cpos idx cidx_i)
           (val (d_group_typeval (constraint' idx cidx_i))).
Proof.
  unfold outer_writes. rewrite in_app_iff, in_map_iff. intros [(j & Hj & _)|H].
  - unfold inner_write in Hj. discriminate.
  - destruct (vec_guard _ _ _ _ _ _); simpl in H; [|contradiction].
    destruct H as [[= -> ->]|[]]. split; reflexivity.
Qed.



(** C10. After [gpu_fill_matrix_vector], every cell of the constraint matrix
    that no pair of slots (constraint of a local particle, constraint of its
    partner) targets, and every entry of the right-hand side that no thread
    stores into, is exactly zero. *)
Theorem untargeted_entries_are_zero (max_block_size block_size : nat)
    (m : fill_mem) (c n : nat) :
  let filled := fill' max_block_size m block_size in
  ((c < n_constraint * n_constraint)%nat ->
   (forall idx cidx_i cidx_j,
      (idx < nptl_local)%nat ->
      (cidx_i < d_gpu_n_constraints idx)%nat ->
      (cidx_j < d_gpu_n_constraints (other' idx cidx_i))%nat ->
      matrix_cell' idx cidx_i cidx_j <> c) ->
   d_matrix filled c = 0)
  /\ ((n < n_constraint)%nat ->
      (forall idx cidx_i,
         (idx < nptl_local)%nat ->
         (cidx_i < d_gpu_n_constraints idx)%nat ->
         vec_guard nptl_local d_gpu_clist gpu_clist_indexer d_gpu_cpos idx cidx_i
         = true ->
         constraint' idx cidx_i <> n) ->
      d_vec filled n = 0).
Proof.
  cbv zeta. rewrite fill_is_apply_writes. cbv zeta. split.
  - intros Hc Hfree. rewrite d_matrix_apply_writes.
    destruct (last_mat c _) as [v|] eqn:E.
    + exfalso. apply last_mat_in, in_launch_writes in E
        as (idx & cidx_i & Hidx & Hci & Hin).
      apply in_outer_writes_mat in Hin as (cidx_j & Hcj & ->).
      now apply (Hfree idx cidx_i cidx_j).
    + simpl. unfold memset0. now apply Nat.ltb_lt in Hc as ->.
  - intros Hn Hfree. rewrite d_vec_apply_writes.
    destruct (last_vec n _) as [v|] eqn:E.
    + exfalso. apply last_vec_in, in_launch_writes in E
        as (idx & cidx_i & Hidx & Hci & Hin).
      pose proof Hin as Hguard. unfold outer_writes in Hguard.
      apply in_app_iff in Hguard as [Hmat|Hguard].
      { apply in_map_iff in Hmat as (j & Hj & _). discriminate. }
      destruct (vec_guard _ _ _ _ _ _) eqn:G; [|contradiction].
      apply in_outer_writes_vec in Hin as [-> _].
      now apply (Hfree idx cidx_i).
    + simpl. unfold memset0. now apply Nat.ltb_lt in Hn as ->.
Qed.

End FillKernel.


Lemma untargeted_entries_are_zero_witness :
  Constraint.d_matrix Dimers.filled 1 = 0%Q
  /\ Constraint.d_vec Dimers.filled 1 = 0%Q.
Proof.
  destruct (untargeted_entries_are_zero Dimers.n_constraint Dimers.nptl_local
              Dimers.d_pos Dimers.d_vel Dimers.d_netforce Dimers.d_gpu_clist
              Dimers.gpu_clist_indexer Dimers.d_gpu_n_constraints
              Dimers.d_gpu_cpos Dimers.d_group_typeval Dimers.deltaT Dimers.box
              1024 32 Dimers.stale 1 1) as [Hmat Hvec].
  split.
  - apply Hmat; [vm_compute; lia|].
    intros idx cidx_i cidx_j Hidx Hi Hj.
    destruct idx as [|[|idx]]; [| |unfold Dimers.nptl_local in Hidx; lia];
      vm_compute in Hi; assert (cidx_i = 0) as -> by lia;
      vm_compute in Hj; assert (cidx_j = 0) as -> by lia;
      vm_compute; discriminate.
  - apply Hvec; [vm_compute; lia|].
    intros idx cidx_i Hidx Hi _.
    destruct idx as [|[|idx]]; [| |unfold Dimers.nptl_local in Hidx; lia];
      vm_compute in Hi; assert (cidx_i = 0) as -> by lia;
      vm_compute; discriminate.
Defined.

(** ** Constraint force writeback *)

Lemma veq_refl (a : Constraint.vec3) : Constraint.veq a a.
Proof. repeat split; reflexivity. Qed.


Section ForceKernel.

Import Constraint.
Local Open Scope Q_scope.

Variable nptl_local : nat.
Variable d_pos : darray Scalar4.
Variable d_gpu_clist : darray group_storage.
Variable gpu_clist_indexer : nat -> nat -> nat.
Variable d_gpu_n_constraints : darray nat.
Variable d_gpu_cpos : darray nat.
Variable box : BoxDim.
Variable d_lagrange : darray Q.

Let slot_of (idx cidx : nat) : nat * nat * nat :=
  (idx_0 (d_gpu_clist (gpu_clist_indexer idx cidx)),
   idx_1 (d_gpu_clist (gpu_clist_indexer idx cidx)),
   d_gpu_cpos (gpu_clist_indexer idx cidx)).

Let step (idx : nat) : vec3 -> nat -> vec3 :=
  force_step nptl_local d_pos d_gpu_clist gpu_clist_indexer d_gpu_cpos box
    d_lagrange idx.


Let thread (idx : nat) (d_force : darray Scalar4) : darray Scalar4 :=
  gpu_fill_constraint_forces_kernel nptl_local d_pos d_gpu_clist
    gpu_clist_indexer d_gpu_n_constraints d_gpu_cpos box d_lagrange idx d_force.



(** After the first [k] threads, the force of every particle below [k] is
    the one its thread computed. *)
Lemma force_threads (d_force : darray Scalar4) (k i : nat) :
  (k <= nptl_local)%nat -> (i < k)%nat ->
  fold_left (fun m idx => thread idx m) (seq 0 k) d_force i
  = let f := fold_left (step i) (seq 0 (d_gpu_n_constraints i)) vzero in
    make_scalar4 (vx f) (vy f) (vz f) 0.
Proof.
  induction k as [|k IH]; intros Hk Hi; [lia|].
  rewrite fold_seq_S.
  set (F := fold_left (fun m idx => thread idx m) (seq 0 k) d_force) in *.
  unfold thread, gpu_fill_constraint_forces_kernel.
  destruct (nptl_local <=? k)%nat eqn:E; [apply Nat.leb_le in E; lia|].
  destruct (Nat.eq_dec i k) as [->|Hne].
  - now rewrite upd_same.
  - rewrite upd_other by exact Hne. apply IH; lia.
Qed.


End ForceKernel.


(** ** The right-hand side is written once *)



(** The pairs of [combine (seq s (length l)) l] are the elements of [l] with
    their positions, counted from [s]. *)
Lemma in_combine_seq {A : Type} (l : list A) (s n : nat) (x : A) :
  In (n, x) (combine (seq s (length l)) l) ->
  s <= n /\ nth_error l (n - s) = Some x.
Proof.
  revert s. induction l as [|y l IH]; intros s; simpl; [contradiction|].
  intros [[= <- <-]|H].
  - split; [lia|]. now rewrite Nat.sub_diag.
  - apply IH in H as [Hs Hn]. split; [lia|].
    replace (n - s) with (S (n - S s)) by lia. exact Hn.
Qed.

Section RightHandSide.

Import Constraint.
Local Open Scope Q_scope.

Variable n_constraint : nat.
Variable nptl_local : nat.
Variables d_pos d_vel d_netforce : darray Scalar4.
Variable d_gpu_clist : darray group_storage.
Variable gpu_clist_indexer : nat -> nat -> nat.
Variable d_gpu_n_constraints : darray nat.
Variable d_gpu_cpos : darray nat.
Variable d_group_typeval : darray typeval_union.
Variable deltaT : Q.
Variable box : BoxDim.

Variable cs : list (nat * nat).
Hypothesis synchronized :
  table_matches nptl_local d_gpu_clist gpu_clist_indexer d_gpu_n_constraints
    d_gpu_cpos cs.




Let slot_of (idx cidx : nat) : nat * nat * nat :=
  (idx_0 (d_gpu_clist (gpu_clist_indexer idx cidx)),
   idx_1 (d_gpu_clist (gpu_clist_indexer idx cidx)),
   d_gpu_cpos (gpu_clist_indexer idx cidx)).









Lemma in_incident (p : nat) (e : nat * nat * nat) :
  In e (incident cs p) ->
  exists n a b,
    nth_error cs n = Some (a, b)
    /\ ((a = p /\ e = (b, n, 0%nat)) \/ (b = p /\ e = (a, n, 1%nat))).
Proof.
  unfold incident. rewrite in_flat_map. intros ([n [a b]] & Hin & He).
  apply in_combine_seq in Hin as [_ Hnth]. rewrite Nat.sub_0_r in Hnth.
  exists n, a, b. split; [exact Hnth|]. cbn [fst snd] in He.
  apply in_app_iff in He as [He|He].
  - destruct (Nat.eqb_spec a p); [|contradiction].
    destruct He as [<-|[]]. now left.
  - destruct (Nat.eqb_spec b p); [|contradiction].
    destruct He as [<-|[]]. now right.
Qed.

(** A slot of a local particle that belongs to constraint [n] orders the two
    particles as the graph does. *)
Lemma ordered_of_slot (n a b idx cidx_i : nat) :
  nth_error cs n = Some (a, b) ->
  (idx < nptl_local)%nat ->
  (cidx_i < d_gpu_n_constraints idx)%nat ->
  idx_1 (d_gpu_clist (gpu_clist_indexer idx cidx_i)) = n ->
  ordered d_gpu_clist gpu_clist_indexer d_gpu_cpos idx cidx_i = (a, b).
Proof.
  intros Hnth Hidx Hci Hn.
  assert (Hrow : In (slot_of idx cidx_i)
                   (row d_gpu_clist gpu_clist_indexer d_gpu_n_constraints
                      d_gpu_cpos idx)).
  { unfold row. apply (in_map (slot_of idx)), in_seq. lia. }
  apply (Permutation_in _ (synchronized idx Hidx)), in_incident in Hrow
    as (n' & a' & b' & Hnth' & Hcase).
  unfold slot_of in Hcase. unfold ordered.
  destruct Hcase as [[-> [= Ho Hn' Hc]]|[-> [= Ho Hn' Hc]]];
    rewrite Hn in Hn'; subst n'; rewrite Hnth in Hnth';
    injection Hnth' as <- <-; rewrite Hc, Ho; reflexivity.
Qed.



End RightHandSide.



(** ** The two constrained pairs, evaluated *)

Example dimers_matrix_entry :
  Qeq (Constraint.d_matrix Dimers.filled 0) 8
  /\ Qeq (Constraint.contributions 0 Dimers.stores) 16.
Proof. split; vm_compute; reflexivity. Qed.

Example dimers_rhs_entry : Qeq (Constraint.d_vec Dimers.filled 0) (- (14)).
Proof. vm_compute. reflexivity. Qed.

Example dimers_force :
  Constraint.veq
    (Constraint.vec3_of
       (Constraint.gpu_compute_constraint_forces Dimers.nptl_local Dimers.d_pos
          Dimers.d_gpu_clist Dimers.gpu_clist_indexer
          Dimers.d_gpu_n_constraints Dimers.d_gpu_cpos Dimers.box
          Dimers.d_lagrange 1024 (fun _ => make_scalar4 9 9 9 9) 32 0))
    (Constraint.mk_vec3 6 0 0).
Proof. vm_compute. repeat split; reflexivity. Qed.

Example first_solve_refactorizes :
  Solver.solve Solver.constructed Solver.regular_matrix
  = Solver.full_solve Solver.constructed Solver.regular_matrix.
Proof. reflexivity. Qed.

Example unchanged_pattern_takes_fast_path :
  Solver.calls (Solver.solve Solver.clean_state Solver.same_pattern)
  = [ Solver.cusparseDnnz; Solver.cusparseDdense2csr;
      Solver.cusolverRfResetValues; Solver.cusolverRfRefactor;
      Solver.cudaMemcpy; Solver.cusolverRfSolve;
      Solver.gpu_compute_constraint_forces ].
Proof. reflexivity. Qed.

(** * Further properties of the migration kernels *)

Section Classifier.

Import MPCD.

Variables (d_comm_flags : darray Z) (mask : Z) (N : nat).

Let mark_thread (m : mark_mem) (idx : nat) : mark_mem :=
  kernel.mark_removed_particles d_comm_flags mask N idx m.

Lemma mark_threads (m : mark_mem) (k i : nat) :
  k <= N ->
  let r := fold_left mark_thread (seq 0 k) m in
  if i <? k
  then d_tmp_id r i = i
       /\ d_tmp_flag r i = (if (Z.land (d_comm_flags i) mask =? 0)%Z then 1 else 0)%Z
  else d_tmp_id r i = d_tmp_id m i /\ d_tmp_flag r i = d_tmp_flag m i.
Proof.
  induction k as [|k IH]; intros Hk; [simpl; auto|].
  cbv zeta. rewrite fold_seq_S.
  specialize (IH ltac:(lia)). cbv zeta in IH.
  set (F := fold_left mark_thread (seq 0 k) m) in *.
  unfold mark_thread, kernel.mark_removed_particles.
  destruct (N <=? k) eqn:E; [apply Nat.leb_le in E; lia|]. simpl.
  destruct (Nat.eq_dec i k) as [->|Hne].
  - assert ((k <? S k) = true) as -> by (apply Nat.ltb_lt; lia).
    now rewrite !upd_same.
  - rewrite !upd_other by exact Hne.
    destruct (Nat.ltb_spec i k), (Nat.ltb_spec i (S k)); (exact IH || lia).
Qed.

End Classifier.

(** X1. The classifier, for any status array and mask: below [N] it writes
    the identity into the id array and into the flag array 1 where
    [status & mask] is zero and 0 elsewhere, so that exactly the particles
    without a masked bit count as kept; from [N] on it leaves both arrays
    untouched. *)
Theorem mark_removed_particles_classifies (max_block_size block_size N : nat)
    (tmp : MPCD.mark_mem) (d_comm_flags : darray Z) (mask : Z) (i : nat) :
  0 < Nat.min block_size max_block_size ->
  let r := MPCD.mark_removed_particles max_block_size tmp d_comm_flags mask N
             block_size in
  (i < N ->
   MPCD.d_tmp_id r i = i
   /\ MPCD.d_tmp_flag r i
      = (if (Z.land (d_comm_flags i) mask =? 0)%Z then 1 else 0)%Z
   /\ (MPCD.selected (MPCD.d_tmp_flag r) i = true
       <-> Z.land (d_comm_flags i) mask = 0%Z))
  /\ (N <= i ->
      MPCD.d_tmp_id r i = MPCD.d_tmp_id tmp i
      /\ MPCD.d_tmp_flag r i = MPCD.d_tmp_flag tmp i).
Proof.
  intros Hblock. cbv zeta. unfold MPCD.mark_removed_particles.
  rewrite (launch_guarded _ N).
  - pose proof (mark_threads d_comm_flags mask N tmp N i (le_n _)) as H.
    cbv zeta in H. split.
    + intros Hi. apply Nat.ltb_lt in Hi. rewrite Hi in H.
      destruct H as [Hid Hflag]. repeat split; try assumption.
      * unfold MPCD.selected. rewrite Hflag.
        destruct (Z.eqb_spec (Z.land (d_comm_flags i) mask) 0);
          [trivial | discriminate].
      * intros Hz. unfold MPCD.selected. rewrite Hflag.
        apply Z.eqb_eq in Hz. now rewrite Hz.
    + intros Hi. apply Nat.ltb_ge in Hi. now rewrite Hi in H.
  - intros idx m Hidx. unfold MPCD.kernel.mark_removed_particles.
    now apply Nat.leb_le in Hidx as ->.
  - apply grid_covers. exact Hblock.
Qed.

Lemma mark_removed_particles_classifies_witness :
  let r := MPCD.mark_removed_particles 1024
             (MPCD.mk_mark_mem (fun _ => 7%Z) (fun _ => 0))
             Scenario.flags Scenario.mask Scenario.N 256 in
  (1 < Scenario.N ->
   MPCD.d_tmp_id r 1 = 1
   /\ MPCD.d_tmp_flag r 1
      = (if (Z.land (Scenario.flags 1%nat) Scenario.mask =? 0)%Z then 1 else 0)%Z
   /\ (MPCD.selected (MPCD.d_tmp_flag r) 1 = true
       <-> Z.land (Scenario.flags 1) Scenario.mask = 0%Z))
  /\ (Scenario.N <= 1 ->
      MPCD.d_tmp_id r 1 = 0 /\ MPCD.d_tmp_flag r 1 = 7%Z).
Proof.
  apply (mark_removed_particles_classifies 1024 256 Scenario.N
           (MPCD.mk_mark_mem (fun _ => 7%Z) (fun _ => 0))
           Scenario.flags Scenario.mask 1).
  vm_compute. lia.
Defined.

Section Compaction.

Import MPCD.

Variables (d_pos0 d_vel0 : darray Scalar4) (d_tag0 : darray nat) (d_flags0 : darray Z).
Variables (d_scan : darray nat) (n_keep N : nat).

Let remove_thread (m : remove_mem) (idx : nat) : remove_mem :=
  kernel.remove_particles n_keep d_pos0 d_vel0 d_tag0 d_flags0 d_scan N idx m.

Lemma remove_particles_unfold (m : remove_mem) :
  remove_particles m n_keep d_pos0 d_vel0 d_tag0 d_flags0 d_scan N
  = fold_left remove_thread (seq 0 N) m.
Proof.
  unfold remove_particles. rewrite (launch_guarded _ N).
  - reflexivity.
  - intros i m' Hi. unfold kernel.remove_particles.
    now apply Nat.leb_le in Hi as ->.
  - apply grid_covers. lia.
Qed.

(** The local arrays after the first [k] threads. *)
Lemma remove_threads_alt (m : remove_mem) (k idx : nat) :
  k <= N ->
  let r := fold_left remove_thread (seq 0 k) m in
  if (idx <? k) && (idx <? n_keep)
  then d_pos_alt r idx = d_pos0 (d_scan idx)
       /\ d_vel_alt r idx = d_vel0 (d_scan idx)
       /\ d_tag_alt r idx = d_tag0 (d_scan idx)
       /\ d_comm_flags_alt r idx = d_flags0 (d_scan idx)
  else d_pos_alt r idx = d_pos_alt m idx
       /\ d_vel_alt r idx = d_vel_alt m idx
       /\ d_tag_alt r idx = d_tag_alt m idx
       /\ d_comm_flags_alt r idx = d_comm_flags_alt m idx.
Proof.
  induction k as [|k IH]; intros Hk; [simpl; auto|].
  cbv zeta. rewrite fold_seq_S.
  specialize (IH ltac:(lia)). cbv zeta in IH.
  set (F := fold_left remove_thread (seq 0 k) m) in *.
  unfold remove_thread, kernel.remove_particles.
  destruct (N <=? k) eqn:E; [apply Nat.leb_le in E; lia|].
  destruct (n_keep <=? k) eqn:E'; simpl.
  - apply Nat.leb_le in E'.
    destruct (Nat.ltb_spec idx k), (Nat.ltb_spec idx (S k)),
      (Nat.ltb_spec idx n_keep); simpl in *; (exact IH || lia).
  - apply Nat.leb_gt in E'.
    destruct (Nat.eq_dec idx k) as [->|Hne].
    + assert ((k <? S k) = true) as -> by (apply Nat.ltb_lt; lia).
      assert ((k <? n_keep) = true) as -> by (apply Nat.ltb_lt; lia).
      simpl. now rewrite !upd_same.
    + rewrite !upd_other by exact Hne.
      destruct (Nat.ltb_spec idx k), (Nat.ltb_spec idx (S k)),
        (Nat.ltb_spec idx n_keep); simpl in *; (exact IH || lia).
Qed.

(** The output buffer beyond the slots of the first [k] threads. *)
Lemma remove_threads_out_frame (m : remove_mem) (k j : nat) :
  k <= N -> k - n_keep <= j ->
  d_out (fold_left remove_thread (seq 0 k) m) j = d_out m j.
Proof.
  induction k as [|k IH]; intros Hk Hj; [reflexivity|].
  rewrite fold_seq_S.
  set (F := fold_left remove_thread (seq 0 k) m) in *.
  unfold remove_thread, kernel.remove_particles.
  destruct (N <=? k) eqn:E; [apply Nat.leb_le in E; lia|].
  destruct (n_keep <=? k) eqn:E'; simpl.
  - apply Nat.leb_le in E'. rewrite upd_other by lia. apply IH; lia.
  - apply IH; lia.
Qed.

End Compaction.

(** X2. Compaction, for any permutation array and any [n_keep]: thread
    [idx] below both [N] and [n_keep] copies the position, velocity, tag and
    status of particle [d_scan[idx]] into slot [idx] of the alternate
    arrays; every other slot of the alternate arrays, and every slot of the
    output buffer from [N - n_keep] on, keeps its old content.  In
    particular nothing is written when [N = 0], the output buffer is
    untouched when [n_keep >= N], and the alternate arrays are untouched
    when [n_keep = 0]. *)
Theorem remove_particles_compacts
    (d_pos0 d_vel0 : darray Scalar4) (d_tag0 : darray nat) (d_flags0 : darray Z)
    (d_scan : darray nat) (n_keep N : nat) (alt : MPCD.remove_mem) (idx : nat) :
  let r := MPCD.remove_particles alt n_keep d_pos0 d_vel0 d_tag0 d_flags0
             d_scan N in
  (if (idx <? N) && (idx <? n_keep)
   then MPCD.d_pos_alt r idx = d_pos0 (d_scan idx)
        /\ MPCD.d_vel_alt r idx = d_vel0 (d_scan idx)
        /\ MPCD.d_tag_alt r idx = d_tag0 (d_scan idx)
        /\ MPCD.d_comm_flags_alt r idx = d_flags0 (d_scan idx)
   else MPCD.d_pos_alt r idx = MPCD.d_pos_alt alt idx
        /\ MPCD.d_vel_alt r idx = MPCD.d_vel_alt alt idx
        /\ MPCD.d_tag_alt r idx = MPCD.d_tag_alt alt idx
        /\ MPCD.d_comm_flags_alt r idx = MPCD.d_comm_flags_alt alt idx)
  /\ (if N - n_keep <=? idx
      then MPCD.d_out r idx = MPCD.d_out alt idx
      else MPCD.d_out r idx
           = MPCD.mk_pdata_element
               (d_pos0 (d_scan (n_keep + idx))) (d_vel0 (d_scan (n_keep + idx)))
               (d_tag0 (d_scan (n_keep + idx))) (d_flags0 (d_scan (n_keep + idx)))).
Proof.
  cbv zeta. rewrite remove_particles_unfold. split.
  - apply (remove_threads_alt d_pos0 d_vel0 d_tag0 d_flags0 d_scan n_keep N
             alt N idx (le_n _)).
  - destruct (Nat.leb_spec (N - n_keep) idx) as [H|H].
    + now apply remove_threads_out_frame.
    + replace idx with ((n_keep + idx) - n_keep) at 1 by lia.
      apply (remove_threads_out d_pos0 d_vel0 d_tag0 d_flags0 d_scan n_keep N
               alt N (n_keep + idx)); lia.
Qed.

Lemma map_seq_shift {A : Type} (f g : nat -> A) (s k : nat) :
  (forall j, j < k -> f j = g (s + j)) ->
  map f (seq 0 k) = map g (seq s k).
Proof.
  revert f s. induction k as [|k IH]; intros f s H; [reflexivity|].
  cbn [seq map]. f_equal.
  - rewrite (H 0 ltac:(lia)). now rewrite Nat.add_0_r.
  - rewrite <- seq_shift, map_map. apply IH.
    intros j Hj. rewrite (H (S j) ltac:(lia)). f_equal. lia.
Qed.

(** X3. Compaction loses and duplicates nothing.  With [n_keep <= N], the
    records in the first [n_keep] local slots followed by the first
    [N - n_keep] records of the output buffer are the source records in the
    order of the permutation array; when that array is a permutation of
    [0 .. N-1] they are a rearrangement of the [N] source particles. *)
Theorem remove_particles_conserves
    (d_pos0 d_vel0 : darray Scalar4) (d_tag0 : darray nat) (d_flags0 : darray Z)
    (d_scan : darray nat) (n_keep N : nat) (alt : MPCD.remove_mem) :
  n_keep <= N ->
  let r := MPCD.remove_particles alt n_keep d_pos0 d_vel0 d_tag0 d_flags0
             d_scan N in
  let source (i : nat) :=
    MPCD.mk_pdata_element (d_pos0 i) (d_vel0 i) (d_tag0 i) (d_flags0 i) in
  let local_slot (i : nat) :=
    MPCD.mk_pdata_element (MPCD.d_pos_alt r i) (MPCD.d_vel_alt r i)
      (MPCD.d_tag_alt r i) (MPCD.d_comm_flags_alt r i) in
  let result := map local_slot (seq 0 n_keep) ++ prefix (MPCD.d_out r) (N - n_keep) in
  result = map source (prefix d_scan N)
  /\ (Permutation (prefix d_scan N) (seq 0 N) ->
      Permutation result (map source (seq 0 N))).
Proof.
  intros Hkeep. cbv zeta.
  set (r := MPCD.remove_particles alt n_keep d_pos0 d_vel0 d_tag0 d_flags0
              d_scan N).
  assert (HN : seq 0 N = seq 0 n_keep ++ seq n_keep (N - n_keep)).
  { rewrite <- seq_app. f_equal. lia. }
  assert (Heq : map (fun i =>
                  MPCD.mk_pdata_element (MPCD.d_pos_alt r i) (MPCD.d_vel_alt r i)
                    (MPCD.d_tag_alt r i) (MPCD.d_comm_flags_alt r i))
                  (seq 0 n_keep)
                ++ prefix (MPCD.d_out r) (N - n_keep)
                = map (fun i => MPCD.mk_pdata_element (d_pos0 i) (d_vel0 i)
                                  (d_tag0 i) (d_flags0 i))
                    (prefix d_scan N)).
  { unfold prefix. rewrite map_map, HN, map_app. f_equal.
    - apply map_ext_in. intros i Hi. apply in_seq in Hi.
      unfold r. rewrite remove_particles_unfold.
      pose proof (remove_threads_alt d_pos0 d_vel0 d_tag0 d_flags0 d_scan
                    n_keep N alt N i (le_n _)) as H. cbv zeta in H.
      assert ((i <? N) = true) as E1 by (apply Nat.ltb_lt; lia).
      assert ((i <? n_keep) = true) as E2 by (apply Nat.ltb_lt; lia).
      rewrite E1, E2 in H. cbn [andb] in H.
      destruct H as (-> & -> & -> & ->). reflexivity.
    - apply map_seq_shift. intros j Hj.
      replace j with ((n_keep + j) - n_keep) at 1 by lia.
      unfold r. rewrite remove_particles_out by lia. reflexivity. }
  split; [exact Heq|].
  intros Hperm. rewrite Heq. now apply Permutation_map.
Qed.

Lemma remove_particles_conserves_witness :
  let r := Scenario.removed in
  let local_slot (i : nat) :=
    MPCD.mk_pdata_element (MPCD.d_pos_alt r i) (MPCD.d_vel_alt r i)
      (MPCD.d_tag_alt r i) (MPCD.d_comm_flags_alt r i) in
  let result := map local_slot (seq 0 3) ++ prefix (MPCD.d_out r) (Scenario.N - 3) in
  result = map Scenario.record_of (prefix (fst Scenario.partitioned) Scenario.N)
  /\ (Permutation (prefix (fst Scenario.partitioned) Scenario.N) (seq 0 Scenario.N) ->
      Permutation result (map Scenario.record_of (seq 0 Scenario.N))).
Proof.
  apply (remove_particles_conserves Scenario.position Scenario.velocity
           Scenario.tag_of Scenario.flags (fst Scenario.partitioned) 3
           Scenario.N _).
  vm_compute. lia.
Defined.

(** The bits of [mask] are absent from [flag & ~mask]. *)
Lemma land_not32_mask (flag mask : Z) :
  Z.land (Z.land flag (MPCD.kernel.not32 mask)) mask = 0%Z.
Proof.
  unfold MPCD.kernel.not32. change 4294967296%Z with (2 ^ 32)%Z.
  apply Z.bits_inj'. intros b Hb.
  rewrite !Z.land_spec, Z.bits_0.
  destruct (Z.ltb_spec b 32).
  - rewrite Z.mod_pow2_bits_low, Z.lnot_spec by lia.
    destruct (Z.testbit flag b), (Z.testbit mask b); reflexivity.
  - rewrite Z.mod_pow2_bits_high by lia.
    destruct (Z.testbit flag b); reflexivity.
Qed.

(** X4. A particle that was appended with migration mask [mask] is not
    flagged again for the same mask: the classifier run with that mask on
    the arrays after the append marks every appended slot as kept. *)
Theorem appended_particles_are_kept
    (old_nparticles num_add_ptls : nat) (local : MPCD.pdata_mem)
    (d_in : darray MPCD.pdata_element) (mask : Z)
    (max_block_size block_size N j : nat) (tmp : MPCD.mark_mem) :
  (Z.of_nat old_nparticles + Z.of_nat num_add_ptls <= 4294967296)%Z ->
  0 < Nat.min block_size max_block_size ->
  j < num_add_ptls ->
  old_nparticles + j < N ->
  let appended := MPCD.add_particles old_nparticles num_add_ptls local d_in mask in
  let marked := MPCD.mark_removed_particles max_block_size tmp
                  (MPCD.d_comm_flags appended) mask N block_size in
  MPCD.d_tmp_flag marked (old_nparticles + j) = 1%Z
  /\ MPCD.selected (MPCD.d_tmp_flag marked) (old_nparticles + j) = true.
Proof.
  intros Hfits Hblock Hj HN. cbv zeta.
  assert (Hflag : MPCD.d_tmp_flag
                    (MPCD.mark_removed_particles max_block_size tmp
                       (MPCD.d_comm_flags
                          (MPCD.add_particles old_nparticles num_add_ptls local
                             d_in mask)) mask N block_size)
                    (old_nparticles + j) = 1%Z).
  { unfold MPCD.mark_removed_particles. rewrite (launch_guarded _ N).
    - pose proof (mark_threads
                    (MPCD.d_comm_flags
                       (MPCD.add_particles old_nparticles num_add_ptls local
                          d_in mask)) mask N tmp N (old_nparticles + j)
                    (le_n _)) as H.
      cbv zeta in H. apply Nat.ltb_lt in HN. rewrite HN in H.
      destruct H as [_ ->].
      rewrite add_particles_unfold.
      destruct (add_threads_written old_nparticles num_add_ptls d_in mask
                  Hfits local num_add_ptls j (le_n _) Hj) as (_ & _ & _ & ->).
      now rewrite land_not32_mask.
    - intros idx m Hidx. unfold MPCD.kernel.mark_removed_particles.
      now apply Nat.leb_le in Hidx as ->.
    - apply grid_covers. exact Hblock. }
  split; [exact Hflag|]. unfold MPCD.selected. now rewrite Hflag.
Qed.

Lemma appended_particles_are_kept_witness :
  let appended :=
    MPCD.add_particles 2 2 Scenario.receiver (MPCD.d_out Scenario.removed) 1%Z in
  let marked := MPCD.mark_removed_particles 1024
                  (MPCD.mk_mark_mem (fun _ => 7%Z) (fun _ => 0))
                  (MPCD.d_comm_flags appended) 1%Z 4 256 in
  MPCD.d_tmp_flag marked (2 + 1) = 1%Z
  /\ MPCD.selected (MPCD.d_tmp_flag marked) (2 + 1) = true.
Proof.
  apply (appended_particles_are_kept 2 2 Scenario.receiver
           (MPCD.d_out Scenario.removed) 1%Z 1024 256 4 1
           (MPCD.mk_mark_mem (fun _ => 7%Z) (fun _ => 0))).
  - vm_compute. discriminate.
  - vm_compute. lia.
  - lia.
  - lia.
Defined.

(** X5. Appends compose: appending a buffer of [M1] records at [K] and then
    a buffer of [M2] records at [K + M1] leaves every position, velocity,
    tag and status entry as one append at [K] of the two buffers joined. *)
Theorem add_particles_composes
    (K M1 M2 : nat) (local : MPCD.pdata_mem)
    (d_in1 d_in2 : darray MPCD.pdata_element) (mask : Z) (i : nat) :
  (Z.of_nat K + Z.of_nat M1 + Z.of_nat M2 <= 4294967296)%Z ->
  let joined (j : nat) := if j <? M1 then d_in1 j else d_in2 (j - M1) in
  let twice :=
    MPCD.add_particles (K + M1) M2 (MPCD.add_particles K M1 local d_in1 mask)
      d_in2 mask in
  let once := MPCD.add_particles K (M1 + M2) local joined mask in
  MPCD.d_pos twice i = MPCD.d_pos once i
  /\ MPCD.d_vel twice i = MPCD.d_vel once i
  /\ MPCD.d_tag twice i = MPCD.d_tag once i
  /\ MPCD.d_comm_flags twice i = MPCD.d_comm_flags once i.
Proof.
  intros Hfits. cbv zeta. rewrite !add_particles_unfold.
  assert (F1 : (Z.of_nat K + Z.of_nat M1 <= 4294967296)%Z) by lia.
  assert (F2 : (Z.of_nat (K + M1) + Z.of_nat M2 <= 4294967296)%Z) by lia.
  assert (F3 : (Z.of_nat K + Z.of_nat (M1 + M2) <= 4294967296)%Z) by lia.
  set (joined := fun j => if j <? M1 then d_in1 j else d_in2 (j - M1)).
  set (first := fold_left _ (seq 0 M1) local).
  destruct (Nat.lt_ge_cases i K) as [Hlow|Hlow].
  - (* below the appended range *)
    destruct (add_threads_frame (K + M1) M2 d_in2 mask F2 first M2 i (le_n _)
                ltac:(lia)) as (-> & -> & -> & ->). subst first.
    destruct (add_threads_frame K M1 d_in1 mask F1 local M1 i (le_n _)
                ltac:(lia)) as (-> & -> & -> & ->).
    destruct (add_threads_frame K (M1 + M2) joined mask F3 local (M1 + M2) i
                (le_n _) ltac:(lia)) as (-> & -> & -> & ->).
    repeat split.
  - destruct (Nat.lt_ge_cases i (K + M1)) as [Hmid|Hmid].
    + (* written by the first append *)
      destruct (add_threads_frame (K + M1) M2 d_in2 mask F2 first M2 i (le_n _)
                  ltac:(lia)) as (-> & -> & -> & ->). subst first.
      replace i with (K + (i - K)) by lia.
      destruct (add_threads_written K M1 d_in1 mask F1 local M1 (i - K)
                  (le_n _) ltac:(lia)) as (-> & -> & -> & ->).
      destruct (add_threads_written K (M1 + M2) joined mask F3 local (M1 + M2)
                  (i - K) (le_n _) ltac:(lia)) as (-> & -> & -> & ->).
      unfold joined.
      assert ((i - K <? M1) = true) as -> by (apply Nat.ltb_lt; lia).
      repeat split.
    + destruct (Nat.lt_ge_cases i (K + M1 + M2)) as [Hhigh|Hhigh].
      * (* written by the second append *)
        replace i with (K + M1 + (i - (K + M1))) at 1 3 5 7 by lia.
        destruct (add_threads_written (K + M1) M2 d_in2 mask F2 first M2
                    (i - (K + M1)) (le_n _) ltac:(lia)) as (-> & -> & -> & ->).
        replace i with (K + (i - K)) by lia.
        destruct (add_threads_written K (M1 + M2) joined mask F3 local (M1 + M2)
                    (i - K) (le_n _) ltac:(lia)) as (-> & -> & -> & ->).
        unfold joined.
        assert ((i - K <? M1) = false) as -> by (apply Nat.ltb_ge; lia).
        replace (i - K - M1) with (K + (i - K) - (K + M1)) by lia.
        repeat split.
      * (* above the appended range *)
        destruct (add_threads_frame (K + M1) M2 d_in2 mask F2 first M2 i (le_n _)
                    ltac:(lia)) as (-> & -> & -> & ->). subst first.
        destruct (add_threads_frame K M1 d_in1 mask F1 local M1 i (le_n _)
                    ltac:(lia)) as (-> & -> & -> & ->).
        destruct (add_threads_frame K (M1 + M2) joined mask F3 local (M1 + M2) i
                    (le_n _) ltac:(lia)) as (-> & -> & -> & ->).
        repeat split.
Qed.

Lemma add_particles_composes_witness :
  let joined (j : nat) :=
    if j <? 1 then MPCD.d_out Scenario.removed j
    else MPCD.d_out Scenario.removed (j - 1) in
  let twice :=
    MPCD.add_particles (2 + 1) 1
      (MPCD.add_particles 2 1 Scenario.receiver (MPCD.d_out Scenario.removed) 1%Z)
      (MPCD.d_out Scenario.removed) 1%Z in
  let once := MPCD.add_particles 2 (1 + 1) Scenario.receiver joined 1%Z in
  MPCD.d_pos twice 3 = MPCD.d_pos once 3
  /\ MPCD.d_vel twice 3 = MPCD.d_vel once 3
  /\ MPCD.d_tag twice 3 = MPCD.d_tag once 3
  /\ MPCD.d_comm_flags twice 3 = MPCD.d_comm_flags once 3.
Proof.
  apply (add_particles_composes 2 1 1 Scenario.receiver
           (MPCD.d_out Scenario.removed) (MPCD.d_out Scenario.removed) 1%Z 3).
  vm_compute. discriminate.
Defined.

(** * Further properties of the solve pipeline *)

Ltac call_present := simpl; repeat (first [left; reflexivity | right]).

Ltac call_absent :=
  let H := fresh "H" in
  intros H; simpl in H;
  repeat (destruct H as [H|H]; [discriminate H|]); exact H.

Section Runs.

Import Solver Lifetime.
Local Open Scope Z_scope.

(** The pipeline only adds to the record of calls. *)
Lemma computeConstraintForces_after (a : answers) (s : state) (tr : list call) :
  computeConstraintForces a s tr = after tr (solve s a).
Proof.
  destruct s as [dirty nnz rf], a as [nn sing].
  cbv [solve computeConstraintForces gpu_dense2sparse bind get put ret emit
       m_nnz_tot m_constraints_dirty m_cusolver_rf_initialized new_nnz
       singularity].
  rewrite changed_or_dirty.
  destruct (negb (nnz =? nn) || dirty).
  - cbv [full_factorization bind get put ret emit throw singularity
         m_nnz_tot m_constraints_dirty m_cusolver_rf_initialized].
    destruct (0 <=? sing); [|destruct rf];
      cbn [after app negb]; rewrite <- ?app_assoc; reflexivity.
  - cbn [after app]. rewrite <- ?app_assoc. reflexivity.
Qed.

Lemma after_after {A : Type} (tr tr' : list call) (o : outcome A) :
  after tr (after tr' o) = after (tr ++ tr') o.
Proof. destruct o; simpl; now rewrite app_assoc. Qed.

Lemma timesteps_after (l : list answers) (s : state) (tr : list call) :
  timesteps l s tr = after tr (run s l).
Proof.
  revert s tr. induction l as [|a l IH]; intros s tr.
  - simpl. unfold ret. now rewrite app_nil_r.
  - unfold run. cbn [timesteps]. unfold bind.
    rewrite (computeConstraintForces_after a s tr).
    rewrite (computeConstraintForces_after a s []).
    destruct (solve s a) as [[] s' t|what s' t]; cbn [after app].
    + rewrite (IH s' (tr ++ t)), (IH s' t). now rewrite after_after.
    + reflexivity.
Qed.

(** A run, one time step at a time. *)
Lemma run_cons (s : state) (a : answers) (l : list answers) :
  run s (a :: l)
  = match solve s a with
    | Returned _ s' t => after t (run s' l)
    | Thrown what s' t => Thrown what s' t
    end.
Proof.
  unfold run at 1. cbn [timesteps]. unfold bind.
  rewrite (computeConstraintForces_after a s []).
  destruct (solve s a) as [[] s' t|what s' t]; cbn [after app].
  - apply timesteps_after.
  - reflexivity.
Qed.

Lemma calls_after {A : Type} (tr : list call) (o : outcome A) :
  calls (after tr o) = tr ++ calls o.
Proof. now destruct o. Qed.

Lemma final_after {A : Type} (tr : list call) (o : outcome A) :
  final (after tr o) = final o.
Proof. now destruct o. Qed.

Lemma thrown_after {A : Type} (tr : list call) (o : outcome A) :
  thrown (after tr o) = thrown o.
Proof. now destruct o. Qed.

Lemma calls_of_app (c : call) (l l' : list call) :
  calls_of c (l ++ l') = (calls_of c l + calls_of c l')%nat.
Proof. apply count_occ_app. Qed.

(** X6. The dirty flag and the nonzero count are updated before the
    factorization is attempted and are not restored when it aborts: a solve
    that follows any solve, returned or thrown, with the same nonzero count
    takes the fast path.  After an aborted first factorization this fast
    path runs although the refactorization handle was never created. *)
Theorem no_retry_after_abort (s : state) (a a' : answers) :
  new_nnz a' = new_nnz a ->
  let first := solve s a in
  let second := solve (final first) a' in
  second = fast_solve (final first) a'
  /\ (thrown first = true ->
      m_cusolver_rf_initialized (final second) = m_cusolver_rf_initialized s
      /\ In cusolverRfResetValues (calls second)
      /\ ~ In cusolverRfCreate (calls first ++ calls second)).
Proof.
  intros Hsame. cbv zeta.
  assert (Hfinal : m_constraints_dirty (final (solve s a)) = false
                   /\ m_nnz_tot (final (solve s a)) = new_nnz a).
  { rewrite solve_eq.
    destruct (refactor_needed s a); [destruct (0 <=? singularity a)|];
      split; reflexivity. }
  destruct Hfinal as [Hdirty Hnnz].
  assert (Hfast : solve (final (solve s a)) a'
                  = fast_solve (final (solve s a)) a').
  { rewrite (solve_eq (final (solve s a)) a'). unfold refactor_needed.
    rewrite Hdirty, Hnnz, Hsame, Z.eqb_refl. reflexivity. }
  split; [exact Hfast|]. rewrite Hfast. intros Hthrown.
  rewrite solve_eq in Hthrown |- *.
  destruct (refactor_needed s a); [destruct (0 <=? singularity a)|];
    try discriminate Hthrown.
  split; [reflexivity|]. split; [call_present | call_absent].
Qed.

Lemma no_retry_after_abort_witness :
  let first := solve constructed singular_matrix in
  let second := solve (final first) regular_matrix in
  second = fast_solve (final first) regular_matrix
  /\ (thrown first = true ->
      m_cusolver_rf_initialized (final second)
      = m_cusolver_rf_initialized constructed
      /\ In cusolverRfResetValues (calls second)
      /\ ~ In cusolverRfCreate (calls first ++ calls second)).
Proof.
  apply (no_retry_after_abort constructed singular_matrix regular_matrix).
  reflexivity.
Defined.

(** X7. A solve that returns destroys the cusolverSp handle and the LU info
    object it created; a solve that throws on a singular matrix leaves both
    alive. *)
Theorem sp_handle_released_unless_thrown (s : state) (a : answers) :
  let r := solve s a in
  let leaked := if thrown r then 1%nat else 0%nat in
  calls_of cusolverSpCreate (calls r)
  = (calls_of cusolverSpDestroy (calls r) + leaked)%nat
  /\ calls_of cusolverSpCreateCsrluInfoHost (calls r)
     = (calls_of cusolverSpDestroyCsrluInfoHost (calls r) + leaked)%nat.
Proof.
  cbv zeta. rewrite solve_eq.
  destruct (refactor_needed s a); [destruct (0 <=? singularity a)|];
    destruct s as [dirty nnz [|]]; split; reflexivity.
Qed.

(** How often one solve creates the refactorization handle. *)
Lemma rf_created_by_solve (s : state) (a : answers) :
  calls_of cusolverRfCreate (calls (solve s a))
  = (if m_cusolver_rf_initialized s then 0
     else if m_cusolver_rf_initialized (final (solve s a)) then 1 else 0)%nat
  /\ (m_cusolver_rf_initialized s = true ->
      m_cusolver_rf_initialized (final (solve s a)) = true).
Proof.
  rewrite solve_eq.
  destruct (refactor_needed s a); [destruct (0 <=? singularity a)|];
    destruct s as [dirty nnz [|]]; split; (reflexivity || (intros; assumption)
    || discriminate).
Qed.

Lemma rf_created_by_run (l : list answers) (s : state) :
  calls_of cusolverRfCreate (calls (run s l))
  = (if m_cusolver_rf_initialized s then 0
     else if m_cusolver_rf_initialized (final (run s l)) then 1 else 0)%nat
  /\ (m_cusolver_rf_initialized s = true ->
      m_cusolver_rf_initialized (final (run s l)) = true).
Proof.
  revert s. induction l as [|a l IH]; intros s.
  - unfold run. simpl. destruct (m_cusolver_rf_initialized s); auto.
  - rewrite run_cons.
    destruct (rf_created_by_solve s a) as [Hcount Hmono].
    destruct (solve s a) as [[] s' t|what s' t] eqn:E; cbn [calls final] in *.
    + destruct (IH s') as [IHcount IHmono].
      rewrite calls_after, final_after, calls_of_app, Hcount, IHcount.
      destruct (m_cusolver_rf_initialized s);
        [rewrite (Hmono eq_refl) in *; split; [reflexivity | auto]|].
      destruct (m_cusolver_rf_initialized s'); split;
        try reflexivity; try discriminate.
      now rewrite (IHmono eq_refl).
    + exact (conj Hcount Hmono).
Qed.

(** X8. Over a run of any length, started in any state, the refactorization
    handle is created at most once, and never when it already exists; once
    it exists it stays. *)
Theorem rf_handle_created_once (l : list answers) (s : state) :
  let r := run s l in
  (calls_of cusolverRfCreate (calls r) <= 1)%nat
  /\ (m_cusolver_rf_initialized s = true ->
      calls_of cusolverRfCreate (calls r) = 0%nat
      /\ m_cusolver_rf_initialized (final r) = true)
  /\ (m_cusolver_rf_initialized s = false ->
      (calls_of cusolverRfCreate (calls r) = 1%nat
       <-> m_cusolver_rf_initialized (final r) = true)).
Proof.
  cbv zeta. destruct (rf_created_by_run l s) as [Hcount Hmono].
  rewrite Hcount.
  destruct (m_cusolver_rf_initialized s),
    (m_cusolver_rf_initialized (final (run s l)));
    repeat split; intros; try lia; try reflexivity; try discriminate; auto.
Qed.

End Runs.

Section Lifetimes.

Import Solver Lifetime.
Local Open Scope Z_scope.

Lemma steps_of_app (x : step) (l l' : list step) :
  steps_of x (l ++ l') = (steps_of x l + steps_of x l')%nat.
Proof. apply count_occ_app. Qed.

Lemma steps_of_solving (c : call) (tr : list call) :
  steps_of (solving c) (map solving tr) = calls_of c tr.
Proof.
  unfold steps_of, calls_of. induction tr as [|y tr IH]; [reflexivity|].
  cbn [map count_occ].
  destruct (step_eq_dec (solving y) (solving c)) as [E|E],
    (call_eq_dec y c) as [E'|E']; try (now rewrite IH).
  - injection E as E. contradiction.
  - subst y. contradiction.
Qed.

Lemma steps_of_other (x : step) (tr : list call) :
  (forall c, x <> solving c) -> steps_of x (map solving tr) = 0%nat.
Proof.
  intros Hx. apply count_occ_not_In. intros Hin.
  apply in_map_iff in Hin as (c & Hc & _). now apply (Hx c).
Qed.

(** X9. From construction to destruction, whatever run lies in between: the
    cuSPARSE handle and each of the three matrix descriptors are created
    once and destroyed once, and the destructor destroys the refactorization
    handle exactly when a solve created it. *)
Theorem handles_balanced (l : list answers) (d : descriptor) :
  let steps := life l in
  steps_of cusparseCreate steps = 1%nat
  /\ steps_of cusparseDestroy steps = 1%nat
  /\ steps_of (cusparseCreateMatDescr d) steps = 1%nat
  /\ steps_of (cusparseDestroyMatDescr d) steps = 1%nat
  /\ steps_of cusolverRfDestroy steps = steps_of (solving cusolverRfCreate) steps
  /\ (steps_of cusolverRfDestroy steps <= 1)%nat.
Proof.
  cbv zeta. unfold life. rewrite !steps_of_app, steps_of_solving.
  rewrite !steps_of_other by discriminate.
  destruct (rf_created_by_run l constructed) as [Hcount _].
  cbn [constructed m_cusolver_rf_initialized] in Hcount. rewrite Hcount.
  unfold destructor.
  destruct (m_cusolver_rf_initialized (final (run constructed l)));
    destruct d; repeat split; try reflexivity; simpl; lia.
Qed.

(** With an unchanged nonzero count and no notification, every further solve
    takes the fast path. *)
Lemma steady_run (a : answers) (k : nat) :
  let s0 := mk_state false (new_nnz a) true in
  let r := run s0 (repeat a k) in
  thrown r = false /\ final r = s0
  /\ calls_of cusolverSpDcsrluFactorHost (calls r) = 0%nat
  /\ calls_of cusolverRfRefactor (calls r) = k
  /\ calls_of cusolverRfSolve (calls r) = k.
Proof.
  cbv zeta. induction k as [|k IH]; [repeat split|].
  cbn [repeat]. rewrite run_cons, solve_eq. unfold refactor_needed.
  cbn [m_nnz_tot m_constraints_dirty]. rewrite Z.eqb_refl. cbn [negb orb].
  unfold fast_solve. cbn [m_cusolver_rf_initialized].
  destruct IH as (Ht & Hf & H1 & H2 & H3).
  rewrite thrown_after, final_after, calls_after, !calls_of_app, H1, H2, H3.
  repeat split; try assumption; reflexivity.
Qed.

(** X10. Steady state: in a run of [k + 1] time steps from the constructed
    state in which the nonzero count stays the same and no pivot is zero,
    the matrix is factorized once, in the first step, and every step
    refactorizes numerically and solves. *)
Theorem factorized_once_in_steady_state (a : answers) (k : nat) :
  singularity a < 0 ->
  let r := run constructed (repeat a (S k)) in
  thrown r = false
  /\ final r = mk_state false (new_nnz a) true
  /\ calls_of cusolverSpDcsrluFactorHost (calls r) = 1%nat
  /\ calls_of cusolverRfCreate (calls r) = 1%nat
  /\ calls_of cusolverRfRefactor (calls r) = S k
  /\ calls_of cusolverRfSolve (calls r) = S k.
Proof.
  intros Hs. cbv zeta. cbn [repeat]. rewrite run_cons, solve_eq.
  unfold refactor_needed, constructed. cbn [m_constraints_dirty].
  rewrite orb_true_r.
  assert ((0 <=? singularity a) = false) as -> by (apply Z.leb_gt; exact Hs).
  unfold full_solve, solved.
  destruct (steady_run a k) as (Ht & Hf & H1 & H2 & H3). cbv zeta in *.
  rewrite thrown_after, final_after, calls_after, !calls_of_app, H1, H2, H3.
  assert (Hc : calls_of cusolverRfCreate
                 (calls (run (mk_state false (new_nnz a) true) (repeat a k)))
               = 0%nat).
  { now destruct (rf_created_by_run (repeat a k)
                    (mk_state false (new_nnz a) true)) as [-> _]. }
  rewrite Hc. repeat split; try assumption; reflexivity.
Qed.

Lemma factorized_once_in_steady_state_witness :
  let r := run constructed (repeat regular_matrix (S 2)) in
  thrown r = false
  /\ final r = mk_state false (new_nnz regular_matrix) true
  /\ calls_of cusolverSpDcsrluFactorHost (calls r) = 1%nat
  /\ calls_of cusolverRfCreate (calls r) = 1%nat
  /\ calls_of cusolverRfRefactor (calls r) = 3%nat
  /\ calls_of cusolverRfSolve (calls r) = 3%nat.
Proof.
  apply (factorized_once_in_steady_state regular_matrix 2). reflexivity.
Defined.

End Lifetimes.

(** * Further properties of the constraint kernels *)

Section FillAgain.

Import Constraint ConstraintGraph.
Local Open Scope Q_scope.

Variable n_constraint : nat.
Variable nptl_local : nat.
Variables d_pos d_vel d_netforce : darray Scalar4.
Variable d_gpu_clist : darray group_storage.
Variable gpu_clist_indexer : nat -> nat -> nat.
Variable d_gpu_n_constraints : darray nat.
Variable d_gpu_cpos : darray nat.
Variable d_group_typeval : darray typeval_union.
Variable deltaT : Q.
Variable box : BoxDim.

Local Abbreviation fill_ :=
  (gpu_fill_matrix_vector n_constraint nptl_local d_pos d_vel d_netforce
     d_gpu_clist gpu_clist_indexer d_gpu_n_constraints d_gpu_cpos
     d_group_typeval deltaT box).
Local Abbreviation stores_ :=
  (launch_writes n_constraint nptl_local d_pos d_vel d_netforce d_gpu_clist
     gpu_clist_indexer d_gpu_n_constraints d_gpu_cpos d_group_typeval deltaT box).
Local Abbreviation outer_ :=
  (outer_writes n_constraint nptl_local d_pos d_vel d_netforce d_gpu_clist
     gpu_clist_indexer d_gpu_n_constraints d_gpu_cpos d_group_typeval deltaT box).

(** X11. The fill rebuilds the system from scratch: within the extent of the
    system (the first [n_constraint^2] cells of the matrix and the first
    [n_constraint] entries of the vector) the result does not depend on what
    the two arrays held before. *)
Theorem fill_forgets_previous_content (max_block_size block_size : nat)
    (m m' : fill_mem) (c n : nat) :
  (c < n_constraint * n_constraint)%nat ->
  (n < n_constraint)%nat ->
  d_matrix (fill_ max_block_size m block_size) c
  = d_matrix (fill_ max_block_size m' block_size) c
  /\ d_vec (fill_ max_block_size m block_size) n
     = d_vec (fill_ max_block_size m' block_size) n.
Proof.
  intros Hc Hn. rewrite !fill_is_apply_writes. cbv zeta.
  rewrite !d_matrix_apply_writes, !d_vec_apply_writes. cbn [d_matrix d_vec].
  unfold memset0.
  apply Nat.ltb_lt in Hc, Hn. rewrite Hc, Hn.
  split; reflexivity.
Qed.


End FillAgain.

Lemma fill_forgets_previous_content_witness :
  Constraint.d_matrix Dimers.filled 0
  = Constraint.d_matrix
      (Constraint.gpu_fill_matrix_vector Dimers.n_constraint Dimers.nptl_local
         Dimers.d_pos Dimers.d_vel Dimers.d_netforce Dimers.d_gpu_clist
         Dimers.gpu_clist_indexer Dimers.d_gpu_n_constraints Dimers.d_gpu_cpos
         Dimers.d_group_typeval Dimers.deltaT Dimers.box 1024
         (Constraint.mk_fill_mem (fun _ => 0%Q) (fun _ => 1%Q)) 32) 0
  /\ Constraint.d_vec Dimers.filled 1
     = Constraint.d_vec
         (Constraint.gpu_fill_matrix_vector Dimers.n_constraint Dimers.nptl_local
            Dimers.d_pos Dimers.d_vel Dimers.d_netforce Dimers.d_gpu_clist
            Dimers.gpu_clist_indexer Dimers.d_gpu_n_constraints Dimers.d_gpu_cpos
            Dimers.d_group_typeval Dimers.deltaT Dimers.box 1024
            (Constraint.mk_fill_mem (fun _ => 0%Q) (fun _ => 1%Q)) 32) 1.
Proof.
  apply (fill_forgets_previous_content Dimers.n_constraint Dimers.nptl_local
           Dimers.d_pos Dimers.d_vel Dimers.d_netforce Dimers.d_gpu_clist
           Dimers.gpu_clist_indexer Dimers.d_gpu_n_constraints
           Dimers.d_gpu_cpos Dimers.d_group_typeval Dimers.deltaT Dimers.box
           1024 32 Dimers.stale
           (Constraint.mk_fill_mem (fun _ => 0%Q) (fun _ => 1%Q)) 0 1).
  - vm_compute. lia.
  - vm_compute. lia.
Defined.


(** ** The fill does not depend on the order of the threads *)

Lemma last_mat_some (c : nat) (l : list Constraint.write) (v : Q) :
  In (Constraint.MatW c v) l -> exists v', Constraint.last_mat c l = Some v'.
Proof.
  induction l as [|w l IH] using rev_ind; [contradiction|].
  rewrite in_app_iff, last_mat_snoc. intros [H|[->|[]]].
  - destruct w as [c' v'|n' v']; [|now apply IH].
    destruct (c' =? c); [now exists v' | now apply IH].
  - rewrite Nat.eqb_refl. now exists v.
Qed.

Lemma last_vec_some_in (n : nat) (l : list Constraint.write) (v : Q) :
  In (Constraint.VecW n v) l -> exists v', Constraint.last_vec n l = Some v'.
Proof.
  induction l as [|w l IH] using rev_ind; [contradiction|].
  rewrite in_app_iff, last_vec_snoc. intros [H|[->|[]]].
  - destruct w as [c' v'|n' v']; [now apply IH|].
    destruct (n' =? n); [now exists v' | now apply IH].
  - rewrite Nat.eqb_refl. now exists v.
Qed.

(** A cell [m * nc + n] with [n < nc] determines [m] and [n]. *)
Lemma cell_injective (nc n m n' m' : nat) :
  n < nc -> n' < nc -> m * nc + n = m' * nc + n' -> n = n' /\ m = m'.
Proof.
  intros Hn Hn' H.
  assert (Hm : m = (m * nc + n) / nc) by (apply (Nat.div_unique _ nc m n); lia).
  assert (Hm' : m' = (m' * nc + n') / nc)
    by (apply (Nat.div_unique _ nc m' n'); lia).
  assert (E : m = m') by (rewrite Hm, Hm', H; reflexivity).
  subst m'. split; [lia | reflexivity].
Qed.

Section Schedules.

Import Constraint ConstraintGraph.
Local Open Scope Q_scope.

Variable n_constraint : nat.
Variable nptl_local : nat.
Variables d_pos d_vel d_netforce : darray Scalar4.
Variable d_gpu_clist : darray group_storage.
Variable gpu_clist_indexer : nat -> nat -> nat.
Variable d_gpu_n_constraints : darray nat.
Variable d_gpu_cpos : darray nat.
Variable d_group_typeval : darray typeval_union.
Variable deltaT : Q.
Variable box : BoxDim.

Variable cs : list (nat * nat).
Variable ntotal : nat.

(** The rows of all particles, local and ghost, match the graph; every
    constraint of the graph has a row in the matrix; and the matrix can be
    addressed with 32-bit offsets. *)
Hypothesis synchronized :
  table_matches ntotal d_gpu_clist gpu_clist_indexer d_gpu_n_constraints
    d_gpu_cpos cs.
Hypothesis local_below : (nptl_local <= ntotal)%nat.
Hypothesis endpoints_below :
  forall n a b, nth_error cs n = Some (a, b) -> (a < ntotal)%nat /\ (b < ntotal)%nat.
Hypothesis all_constraints : n_constraint = length cs.
Hypothesis addressable :
  (Z.of_nat n_constraint * Z.of_nat n_constraint <= 4294967296)%Z.

Local Abbreviation fill_ :=
  (gpu_fill_matrix_vector n_constraint nptl_local d_pos d_vel d_netforce
     d_gpu_clist gpu_clist_indexer d_gpu_n_constraints d_gpu_cpos
     d_group_typeval deltaT box).
Local Abbreviation stores_ :=
  (launch_writes n_constraint nptl_local d_pos d_vel d_netforce d_gpu_clist
     gpu_clist_indexer d_gpu_n_constraints d_gpu_cpos d_group_typeval deltaT box).
Local Abbreviation other_ idx cidx := (idx_0 (d_gpu_clist (gpu_clist_indexer idx cidx))).
Local Abbreviation constraint_ idx cidx := (idx_1 (d_gpu_clist (gpu_clist_indexer idx cidx))).
Local Abbreviation ordered_ := (ordered d_gpu_clist gpu_clist_indexer d_gpu_cpos).

(** A slot of any particle belongs to a constraint of the graph and orders
    its two particles as the graph does. *)
Lemma slot_in_graph (idx cidx : nat) :
  (idx < ntotal)%nat -> (cidx < d_gpu_n_constraints idx)%nat ->
  exists a b,
    nth_error cs (constraint_ idx cidx) = Some (a, b)
    /\ ordered_ idx cidx = (a, b)
    /\ (other_ idx cidx < ntotal)%nat.
Proof.
  intros Hidx Hc.
  assert (Hrow : In (other_ idx cidx, constraint_ idx cidx,
                     d_gpu_cpos (gpu_clist_indexer idx cidx))
                   (row d_gpu_clist gpu_clist_indexer d_gpu_n_constraints
                      d_gpu_cpos idx)).
  { unfold row.
    apply (in_map (fun c => (other_ idx c, constraint_ idx c,
                             d_gpu_cpos (gpu_clist_indexer idx c)))),
      in_seq. lia. }
  apply (Permutation_in _ (synchronized idx Hidx)), in_incident in Hrow
    as (n & a & b & Hnth & Hcase).
  assert (Hn : constraint_ idx cidx = n)
    by (destruct Hcase as [[_ [= _ H _]]|[_ [= _ H _]]]; exact H).
  exists a, b. rewrite Hn. split; [exact Hnth|]. split.
  - apply (ordered_of_slot ntotal d_gpu_clist gpu_clist_indexer
             d_gpu_n_constraints d_gpu_cpos cs synchronized n a b idx cidx
             Hnth Hidx Hc Hn).
  - destruct (endpoints_below n a b Hnth) as [Ha Hb].
    destruct Hcase as [[_ [= -> _ _]]|[_ [= -> _ _]]]; assumption.
Qed.

Lemma nth_error_below (n : nat) (ab : nat * nat) :
  nth_error cs n = Some ab -> (n < n_constraint)%nat.
Proof.
  intros H. rewrite all_constraints. apply nth_error_Some. now rewrite H.
Qed.

(** Every store into the matrix carries the entry the graph gives to the
    pair of constraints of its cell. *)
Lemma matrix_store_from_graph (T c : nat) (v : Q) :
  In (MatW c v) (stores_ T) ->
  exists n m,
    (n < n_constraint)%nat /\ (m < n_constraint)%nat
    /\ c = (m * n_constraint + n)%nat
    /\ v = graph_entry d_pos d_vel deltaT box cs n m.
Proof.
  intros Hin. apply in_launch_writes in Hin as (idx & ci & Hidx & Hci & Hin).
  unfold outer_writes in Hin. apply in_app_iff in Hin as [Hin|Hin].
  2:{ destruct (vec_guard _ _ _ _ _ _); [destruct Hin as [Hin|[]]|];
        (discriminate || contradiction). }
  apply in_map_iff in Hin as (cj & Hw & Hcj). apply in_seq in Hcj.
  unfold inner_write in Hw. injection Hw as Hc Hv.
  destruct (slot_in_graph idx ci ltac:(lia) Hci) as (a & b & Hn & Hab & Hother).
  destruct (slot_in_graph (other_ idx ci) cj Hother ltac:(lia))
    as (a' & b' & Hm & Hmab & _).
  pose proof (nth_error_below _ _ Hn) as Hnlt.
  pose proof (nth_error_below _ _ Hm) as Hmlt.
  exists (constraint_ idx ci), (constraint_ (other_ idx ci) cj).
  split; [exact Hnlt|]. split; [exact Hmlt|]. split.
  - rewrite <- Hc. unfold matrix_cell. apply wrap32_small. nia.
  - rewrite <- Hv. unfold matrix_value, graph_entry.
    rewrite Hn, Hm, Hab, Hmab. reflexivity.
Qed.

(** Every store into the vector carries the value the graph gives to its
    constraint. *)
Lemma vector_store_from_graph (T n : nat) (v : Q) :
  In (VecW n v) (stores_ T) ->
  exists a b,
    nth_error cs n = Some (a, b)
    /\ v = vec_element d_pos d_vel d_netforce deltaT box (a, b)
             (val (d_group_typeval n)).
Proof.
  intros Hin. apply in_launch_writes in Hin as (idx & ci & Hidx & Hci & Hin).
  apply in_outer_writes_vec in Hin as [-> ->].
  destruct (slot_in_graph idx ci ltac:(lia) Hci) as (a & b & Hn & Hab & _).
  exists a, b. split; [exact Hn|]. now rewrite Hab.
Qed.

Lemma same_cell_same_value (T c : nat) (v v' : Q) :
  In (MatW c v) (stores_ T) -> In (MatW c v') (stores_ T) -> v = v'.
Proof.
  intros H H'.
  apply matrix_store_from_graph in H as (n & m & Hn & Hm & Hc & ->).
  apply matrix_store_from_graph in H' as (n' & m' & Hn' & Hm' & Hc' & ->).
  destruct (cell_injective n_constraint n m n' m' Hn Hn' ltac:(lia)) as [-> ->].
  reflexivity.
Qed.

Lemma same_entry_same_value (T n : nat) (v v' : Q) :
  In (VecW n v) (stores_ T) -> In (VecW n v') (stores_ T) -> v = v'.
Proof.
  intros H H'.
  apply vector_store_from_graph in H as (a & b & Hn & ->).
  apply vector_store_from_graph in H' as (a' & b' & Hn' & ->).
  rewrite Hn in Hn'. now injection Hn' as <- <-.
Qed.

(** X13. The result of the fill does not depend on the order in which the
    stores of the threads reach memory.  When the device table matches the
    constraint graph, all stores into one matrix cell carry the same value,
    the entry of the pair of constraints of that cell, and all stores into
    one vector entry carry the same value; hence applying the stores of the
    launch in any order to the zeroed arrays gives the arrays the host
    function returns. *)
Theorem fill_is_schedule_independent (max_block_size block_size : nat)
    (m : fill_mem) (schedule : list write) (c : nat) :
  let run_block_size := Nat.min block_size max_block_size in
  let stores := stores_ ((nptl_local / run_block_size + 1) * run_block_size)%nat in
  let filled := fill_ max_block_size m block_size in
  Permutation schedule stores ->
  (forall v v', In (MatW c v) stores -> In (MatW c v') stores -> v = v')
  /\ (forall v v', In (VecW c v) stores -> In (VecW c v') stores -> v = v')
  /\ d_matrix (apply_writes schedule (zeroed n_constraint m)) c = d_matrix filled c
  /\ d_vec (apply_writes schedule (zeroed n_constraint m)) c = d_vec filled c.
Proof.
  cbv zeta. intros Hperm.
  set (T := ((nptl_local / Nat.min block_size max_block_size + 1)
             * Nat.min block_size max_block_size)%nat) in *.
  split; [intros v v'; apply same_cell_same_value|].
  split; [intros v v'; apply same_entry_same_value|].
  rewrite fill_is_apply_writes. cbv zeta. fold T. fold (zeroed n_constraint m).
  rewrite !d_matrix_apply_writes, !d_vec_apply_writes. split.
  - destruct (last_mat c schedule) as [v|] eqn:E, (last_mat c (stores_ T)) as [v'|] eqn:E';
      try reflexivity.
    + apply last_mat_in in E, E'.
      apply (same_cell_same_value T c v v'); [|exact E'].
      apply (Permutation_in _ Hperm E).
    + apply last_mat_in, (Permutation_in _ Hperm), last_mat_some in E
        as [v' Hv']. congruence.
    + apply last_mat_in, (Permutation_in _ (Permutation_sym Hperm)),
        last_mat_some in E' as [v Hv]. congruence.
  - destruct (last_vec c schedule) as [v|] eqn:E, (last_vec c (stores_ T)) as [v'|] eqn:E';
      try reflexivity.
    + apply last_vec_in in E, E'.
      apply (same_entry_same_value T c v v'); [|exact E'].
      apply (Permutation_in _ Hperm E).
    + apply last_vec_in, (Permutation_in _ Hperm), last_vec_some_in in E
        as [v' Hv']. congruence.
    + apply last_vec_in, (Permutation_in _ (Permutation_sym Hperm)),
        last_vec_some_in in E' as [v Hv]. congruence.
Qed.

(** X14. The diagonal of the matrix: a store into cell (n, n) for a
    constraint between two different particles a and b carries
    4 (q_n . r_n) (1/m_a + 1/m_b). *)
Theorem diagonal_entry (T n a b : nat) (v : Q) :
  nth_error cs n = Some (a, b) ->
  a <> b ->
  In (MatW (n * n_constraint + n) v) (stores_ T) ->
  v == 4 * dot (predicted d_pos d_vel deltaT box (a, b))
               (separation d_pos box (a, b))
         * (1 / s4w (d_vel a) + 1 / s4w (d_vel b)).
Proof.
  intros Hnth Hne Hin.
  apply matrix_store_from_graph in Hin as (n' & m' & Hn' & Hm' & Hc & ->).
  pose proof (nth_error_below _ _ Hnth) as Hn.
  destruct (cell_injective n_constraint n n n' m' Hn Hn' Hc) as [<- <-].
  unfold graph_entry. rewrite Hnth. cbn [fst snd]. unfold mat_element.
  rewrite !Nat.eqb_refl.
  assert ((a =? b)%nat = false) as -> by (now apply Nat.eqb_neq).
  assert ((b =? a)%nat = false) as -> by (apply Nat.eqb_neq; congruence).
  unfold Qdiv. ring.
Qed.

End Schedules.

Lemma dimers_synchronized_all :
  Constraint.table_matches 4 Dimers.d_gpu_clist Dimers.gpu_clist_indexer
    Dimers.d_gpu_n_constraints Dimers.d_gpu_cpos Dimers.graph.
Proof.
  intros p Hp.
  destruct p as [|[|[|[|p]]]]; [| | | |lia]; vm_compute; apply Permutation_refl.
Defined.

Lemma dimers_endpoints_below (n a b : nat) :
  nth_error Dimers.graph n = Some (a, b) -> a < 4 /\ b < 4.
Proof.
  destruct n as [|[|[|n]]]; simpl; intros H; try discriminate H;
    injection H as <- <-; split; lia.
Defined.

Lemma dimers_addressable :
  (Z.of_nat Dimers.n_constraint * Z.of_nat Dimers.n_constraint <= 4294967296)%Z.
Proof. vm_compute. discriminate. Defined.

Lemma fill_is_schedule_independent_witness :
  (forall v v', In (Constraint.MatW 0 v) Dimers.stores ->
                In (Constraint.MatW 0 v') Dimers.stores -> v = v')
  /\ (forall v v', In (Constraint.VecW 0 v) Dimers.stores ->
                   In (Constraint.VecW 0 v') Dimers.stores -> v = v')
  /\ Constraint.d_matrix
       (Constraint.apply_writes (rev Dimers.stores)
          (ConstraintGraph.zeroed Dimers.n_constraint Dimers.stale)) 0
     = Constraint.d_matrix Dimers.filled 0
  /\ Constraint.d_vec
       (Constraint.apply_writes (rev Dimers.stores)
          (ConstraintGraph.zeroed Dimers.n_constraint Dimers.stale)) 0
     = Constraint.d_vec Dimers.filled 0.
Proof.
  apply (fill_is_schedule_independent Dimers.n_constraint Dimers.nptl_local
           Dimers.d_pos Dimers.d_vel Dimers.d_netforce Dimers.d_gpu_clist
           Dimers.gpu_clist_indexer Dimers.d_gpu_n_constraints
           Dimers.d_gpu_cpos Dimers.d_group_typeval Dimers.deltaT Dimers.box
           Dimers.graph 4 dimers_synchronized_all ltac:(vm_compute; lia)
           dimers_endpoints_below eq_refl dimers_addressable
           1024 32 Dimers.stale (rev Dimers.stores) 0).
  apply Permutation_sym, Permutation_rev.
Defined.

Lemma diagonal_entry_witness :
  Qeq (Constraint.matrix_value Dimers.d_pos Dimers.d_vel Dimers.d_gpu_clist
         Dimers.gpu_clist_indexer Dimers.d_gpu_cpos Dimers.deltaT Dimers.box
         0 0 0)
      (4 * Constraint.dot
             (Constraint.predicted Dimers.d_pos Dimers.d_vel Dimers.deltaT
                Dimers.box (0, 1))
             (Constraint.separation Dimers.d_pos Dimers.box (0, 1))
       * (1 / s4w (Dimers.d_vel 0) + 1 / s4w (Dimers.d_vel 1))).
Proof.
  apply (diagonal_entry Dimers.n_constraint Dimers.nptl_local
           Dimers.d_pos Dimers.d_vel Dimers.d_netforce Dimers.d_gpu_clist
           Dimers.gpu_clist_indexer Dimers.d_gpu_n_constraints
           Dimers.d_gpu_cpos Dimers.d_group_typeval Dimers.deltaT Dimers.box
           Dimers.graph 4 dimers_synchronized_all ltac:(vm_compute; lia)
           dimers_endpoints_below eq_refl dimers_addressable 32 0 0 1).
  - reflexivity.
  - discriminate.
  - vm_compute. left. reflexivity.
Defined.

(** ** The force kernel at its edges *)

Section ForceAgain.

Import Constraint.
Local Open Scope Q_scope.

Variable nptl_local : nat.
Variable d_pos : darray Scalar4.
Variable d_gpu_clist : darray group_storage.
Variable gpu_clist_indexer : nat -> nat -> nat.
Variable d_gpu_n_constraints : darray nat.
Variable d_gpu_cpos : darray nat.
Variable box : BoxDim.
Variable d_lagrange : darray Q.

Local Abbreviation forces_ :=
  (gpu_compute_constraint_forces nptl_local d_pos d_gpu_clist
     gpu_clist_indexer d_gpu_n_constraints d_gpu_cpos box d_lagrange).
Local Abbreviation kernel_ :=
  (gpu_fill_constraint_forces_kernel nptl_local d_pos d_gpu_clist
     gpu_clist_indexer d_gpu_n_constraints d_gpu_cpos box d_lagrange).
Local Abbreviation step_ :=
  (force_step nptl_local d_pos d_gpu_clist gpu_clist_indexer d_gpu_cpos box
     d_lagrange).

Lemma forces_unfold (max_block_size block_size : nat) (d_force : darray Scalar4) :
  (0 < Nat.min block_size max_block_size)%nat ->
  forces_ max_block_size d_force block_size
  = fold_left (fun m idx => kernel_ idx m) (seq 0 nptl_local) d_force.
Proof.
  intros Hblock. unfold gpu_compute_constraint_forces.
  apply launch_guarded.
  - intros idx m Hidx. unfold gpu_fill_constraint_forces_kernel.
    now apply Nat.leb_le in Hidx as ->.
  - apply grid_covers. exact Hblock.
Qed.



(** The two slots of one constraint: slot [ca] of particle [a] names [b] and
    gives [a] the first position, slot [cb] of [b] names [a] and gives [b]
    the second position, and both name the same constraint. *)
Let partners (a ca b cb : nat) : Prop :=
  idx_0 (d_gpu_clist (gpu_clist_indexer a ca)) = b
  /\ idx_0 (d_gpu_clist (gpu_clist_indexer b cb)) = a
  /\ idx_1 (d_gpu_clist (gpu_clist_indexer a ca))
     = idx_1 (d_gpu_clist (gpu_clist_indexer b cb))
  /\ d_gpu_cpos (gpu_clist_indexer a ca) = 0%nat
  /\ d_gpu_cpos (gpu_clist_indexer b cb) <> 0%nat.

Lemma partner_steps_cancel (a ca b cb : nat) (f g : vec3) :
  (a < nptl_local)%nat -> (b < nptl_local)%nat ->
  partners a ca b cb ->
  veq (vadd (step_ a f ca) (step_ b g cb)) (vadd f g).
Proof.
  intros Ha Hb (Hoa & Hob & Hn & Hpa & Hpb).
  unfold force_step, ordered.
  apply Nat.ltb_lt in Ha, Hb. rewrite Ha, Hb, Hoa, Hob, Hn, Hpa.
  apply Nat.eqb_neq in Hpb. rewrite Hpb. cbn [Nat.eqb].
  unfold veq, vadd, vscale. cbn [vx vy vz]. repeat split; ring.
Qed.

(** X16. Action and reaction: for two local particles joined by one
    constraint and taking part in no other, the two forces the kernel
    writes are opposite; their sum is zero in every component. *)
Theorem pair_forces_cancel (max_block_size block_size : nat)
    (d_force : darray Scalar4) (a b : nat) :
  (0 < Nat.min block_size max_block_size)%nat ->
  (a < nptl_local)%nat -> (b < nptl_local)%nat ->
  d_gpu_n_constraints a = 1%nat -> d_gpu_n_constraints b = 1%nat ->
  idx_0 (d_gpu_clist (gpu_clist_indexer a 0)) = b ->
  idx_0 (d_gpu_clist (gpu_clist_indexer b 0)) = a ->
  idx_1 (d_gpu_clist (gpu_clist_indexer a 0))
  = idx_1 (d_gpu_clist (gpu_clist_indexer b 0)) ->
  d_gpu_cpos (gpu_clist_indexer a 0) = 0%nat ->
  d_gpu_cpos (gpu_clist_indexer b 0) <> 0%nat ->
  let written := forces_ max_block_size d_force block_size in
  veq (vadd (vec3_of (written a)) (vec3_of (written b))) vzero.
Proof.
  intros Hblock Ha Hb Hna Hnb Hoa Hob Hn Hpa Hpb. cbv zeta.
  rewrite !forces_unfold by exact Hblock.
  rewrite !(force_threads nptl_local d_pos d_gpu_clist gpu_clist_indexer
              d_gpu_n_constraints d_gpu_cpos box d_lagrange _ nptl_local _
              (le_n _)) by assumption.
  cbv zeta. rewrite Hna, Hnb. cbn [seq fold_left].
  destruct (partner_steps_cancel a 0 b 0 vzero vzero Ha Hb
              (conj Hoa (conj Hob (conj Hn (conj Hpa Hpb)))))
    as (Hx & Hy & Hz).
  unfold veq, vadd, vec3_of, vzero in *. cbn [vx vy vz s4x s4y s4z] in *.
  rewrite Hx, Hy, Hz. repeat split; ring.
Qed.

(** X17. Vanishing multipliers give vanishing forces: when every Lagrange
    multiplier is zero, the force written for a local particle is zero in
    every component. *)
Theorem zero_multipliers_zero_forces (max_block_size block_size : nat)
    (d_force : darray Scalar4) (i : nat) :
  (0 < Nat.min block_size max_block_size)%nat ->
  (i < nptl_local)%nat ->
  (forall n, d_lagrange n == 0) ->
  veq (vec3_of (forces_ max_block_size d_force block_size i)) vzero.
Proof.
  intros Hblock Hi Hzero. rewrite forces_unfold by exact Hblock.
  rewrite (force_threads nptl_local d_pos d_gpu_clist gpu_clist_indexer
             d_gpu_n_constraints d_gpu_cpos box d_lagrange _ nptl_local i
             (le_n _) Hi).
  cbv zeta. unfold vec3_of. cbn [s4x s4y s4z].
  assert (G : forall l f, veq f vzero -> veq (fold_left (step_ i) l f) vzero).
  { induction l as [|c l IH]; intros f Hf; [exact Hf|].
    cbn [fold_left]. apply IH.
    destruct Hf as (Hx & Hy & Hz). unfold force_step.
    apply Nat.ltb_lt in Hi. rewrite Hi.
    destruct (d_gpu_cpos (gpu_clist_indexer i c) =? 0)%nat;
      unfold veq, vadd, vscale, vzero in *; cbn [vx vy vz] in *;
      rewrite Hx, Hy, Hz, Hzero; repeat split; ring. }
  destruct (G (seq 0 (d_gpu_n_constraints i)) vzero (veq_refl vzero))
    as (Hx & Hy & Hz).
  repeat split; assumption.
Qed.

End ForceAgain.


Lemma pair_forces_cancel_witness :
  let written :=
    Constraint.gpu_compute_constraint_forces Dimers.nptl_local Dimers.d_pos
      Dimers.d_gpu_clist Dimers.gpu_clist_indexer Dimers.d_gpu_n_constraints
      Dimers.d_gpu_cpos Dimers.box Dimers.d_lagrange 1024
      (fun _ => make_scalar4 9 9 9 9) 32 in
  Constraint.veq
    (Constraint.vadd (Constraint.vec3_of (written 0))
       (Constraint.vec3_of (written 1)))
    Constraint.vzero.
Proof.
  apply (pair_forces_cancel Dimers.nptl_local Dimers.d_pos
           Dimers.d_gpu_clist Dimers.gpu_clist_indexer
           Dimers.d_gpu_n_constraints Dimers.d_gpu_cpos Dimers.box
           Dimers.d_lagrange 1024 32 (fun _ => make_scalar4 9 9 9 9) 0 1).
  - vm_compute. lia.
  - vm_compute. lia.
  - vm_compute. lia.
  - reflexivity.
  - reflexivity.
  - reflexivity.
  - reflexivity.
  - reflexivity.
  - reflexivity.
  - vm_compute. discriminate.
Defined.

Lemma zero_multipliers_zero_forces_witness :
  Constraint.veq
    (Constraint.vec3_of
       (Constraint.gpu_compute_constraint_forces Dimers.nptl_local Dimers.d_pos
          Dimers.d_gpu_clist Dimers.gpu_clist_indexer
          Dimers.d_gpu_n_constraints Dimers.d_gpu_cpos Dimers.box
          (fun _ => 0%Q) 1024 (fun _ => make_scalar4 9 9 9 9) 32 0))
    Constraint.vzero.
Proof.
  apply (zero_multipliers_zero_forces Dimers.nptl_local Dimers.d_pos
           Dimers.d_gpu_clist Dimers.gpu_clist_indexer
           Dimers.d_gpu_n_constraints Dimers.d_gpu_cpos Dimers.box
           (fun _ => 0%Q) 1024 32 (fun _ => make_scalar4 9 9 9 9) 0).
  - vm_compute. lia.
  - vm_compute. lia.
  - intros n. reflexivity.
Defined.

(** * The evaluator factory *)

Section Factory.

Import EvalFactory.

(** X18. The factory publishes an evaluator only when every step
    succeeded: [m_eval] is non-null exactly when the program symbols load,
    the code compiles, the JIT is created, the module is added and the
    three symbols are found, [eval] at a non-null address.  Then no error
    message is set and the two parameter arrays are bound to the addresses
    found; on any failure [m_eval] stays null and neither array is bound. *)
Theorem evaluator_published_iff_all_succeed (t : toolchain) :
  let o := EvalFactory t in
  (m_eval o <> 0%Z
   <-> all_succeed t /\ findSymbol t "eval"%string <> Some 0%Z)
  /\ (all_succeed t ->
      m_error_msg o = EmptyString
      /\ Some (m_eval o) = findSymbol t "eval"%string
      /\ m_alpha o = findSymbol t "param_array"%string
      /\ m_alpha_union o = findSymbol t "alpha_union"%string)
  /\ (~ all_succeed t ->
      m_eval o = 0%Z /\ m_alpha o = None /\ m_alpha_union o = None).
Proof.
  cbv zeta. unfold EvalFactory, all_succeed, failed.
  destruct t as [load comp str jit add find]. cbn [LoadLibraryPermanently
    compileCode sstream Create addModule findSymbol].
  destruct load, comp, jit, add; cbn [negb];
    try (split; [split; [intros H; now contradiction H
                        | intros [(? & ? & ? & ? & _) _]; discriminate]
                |split; [intros (? & ? & ? & ? & _); discriminate
                        | intros _; repeat split]]).
  destruct (find "eval"%string) as [e|] eqn:Ee;
    [destruct (find "param_array"%string) as [p|] eqn:Ep;
     [destruct (find "alpha_union"%string) as [u|] eqn:Eu|]|];
    cbn [m_eval m_alpha m_alpha_union m_error_msg].
  - split; [split|split].
    + intros H. split; [repeat split; discriminate|]. congruence.
    + intros [_ H]. congruence.
    + intros _. repeat split.
    + intros H. exfalso. apply H. repeat split; discriminate.
  - split; [split|split].
    + intros H. now contradiction H.
    + intros [(_ & _ & _ & _ & _ & _ & H) _]. now contradiction H.
    + intros (_ & _ & _ & _ & _ & _ & H). now contradiction H.
    + intros _. repeat split.
  - split; [split|split].
    + intros H. now contradiction H.
    + intros [(_ & _ & _ & _ & _ & H & _) _]. now contradiction H.
    + intros (_ & _ & _ & _ & _ & H & _). now contradiction H.
    + intros _. repeat split.
  - split; [split|split].
    + intros H. now contradiction H.
    + intros [(_ & _ & _ & _ & H & _) _]. now contradiction H.
    + intros (_ & _ & _ & _ & H & _). now contradiction H.
    + intros _. repeat split.
Qed.

End Factory.

Example module_without_alpha_union :
  EvalFactory.EvalFactory EvalFactory.old_module
  = EvalFactory.failed "Could not find alpha_union array in LLVM module.".
Proof. reflexivity. Qed.

Example module_with_all_symbols :
  EvalFactory.EvalFactory EvalFactory.full_module
  = EvalFactory.mk_members 4096 (Some 8192%Z) (Some 12288%Z) EmptyString.
Proof. reflexivity. Qed.

(** * Symmetry of the constraint matrix *)

Section Symmetry.

Import Constraint ConstraintGraph.
Local Open Scope Q_scope.

Lemma mat_element_compat (a b a' b' : nat) (q q' r : vec3) (ma mb : Q) :
  veq q q' ->
  mat_element a b a' b' q r ma mb == mat_element a b a' b' q' r ma mb.
Proof.
  intros (Hx & Hy & Hz). unfold mat_element, dot.
  destruct (a =? a')%nat, (a =? b')%nat, (b =? a')%nat, (b =? b')%nat;
    rewrite ?Hx, ?Hy, ?Hz; reflexivity.
Qed.

Lemma mat_element_symmetric (mass : nat -> Q) (a b a' b' : nat) (r r' : vec3) :
  mat_element a b a' b' r r' (mass a) (mass b)
  == mat_element a' b' a b r' r (mass a') (mass b').
Proof.
  unfold mat_element, dot.
  destruct (Nat.eqb_spec a a'), (Nat.eqb_spec a b'), (Nat.eqb_spec b a'),
    (Nat.eqb_spec b b'); subst;
    repeat match goal with
           | |- context [(?x =? ?x)%nat] => rewrite (Nat.eqb_refl x)
           | H : ?x <> ?y |- context [(?y =? ?x)%nat] =>
               rewrite (proj2 (Nat.eqb_neq y x)) by congruence
           | H : ?x <> ?y |- context [(?x =? ?y)%nat] =>
               rewrite (proj2 (Nat.eqb_neq x y)) by congruence
           end;
    try congruence; unfold Qdiv; ring.
Qed.

Variable n_constraint : nat.
Variable nptl_local : nat.
Variables d_pos d_vel d_netforce : darray Scalar4.
Variable d_gpu_clist : darray group_storage.
Variable gpu_clist_indexer : nat -> nat -> nat.
Variable d_gpu_n_constraints : darray nat.
Variable d_gpu_cpos : darray nat.
Variable d_group_typeval : darray typeval_union.
Variable deltaT : Q.
Variable box : BoxDim.
Variable cs : list (nat * nat).
Variable ntotal : nat.

Hypothesis synchronized :
  table_matches ntotal d_gpu_clist gpu_clist_indexer d_gpu_n_constraints
    d_gpu_cpos cs.
Hypothesis local_below : (nptl_local <= ntotal)%nat.
Hypothesis endpoints_below :
  forall n a b, nth_error cs n = Some (a, b) -> (a < ntotal)%nat /\ (b < ntotal)%nat.
Hypothesis all_constraints : n_constraint = length cs.
Hypothesis addressable :
  (Z.of_nat n_constraint * Z.of_nat n_constraint <= 4294967296)%Z.

(** The two particles of every constraint move with the same velocity. *)
Hypothesis at_rest :
  forall n a b, nth_error cs n = Some (a, b) ->
                veq (vec3_of (d_vel a)) (vec3_of (d_vel b)).

Lemma predicted_at_rest (n a b : nat) :
  nth_error cs n = Some (a, b) ->
  veq (predicted d_pos d_vel deltaT box (a, b)) (separation d_pos box (a, b)).
Proof.
  intros H. destruct (at_rest n a b H) as (Hx & Hy & Hz).
  unfold predicted, veq, vadd, vscale, vsub in *. cbn [fst snd vx vy vz] in *.
  rewrite Hx, Hy, Hz. repeat split; ring.
Qed.

Lemma graph_entry_symmetric (n m : nat) :
  graph_entry d_pos d_vel deltaT box cs n m
  == graph_entry d_pos d_vel deltaT box cs m n.
Proof.
  unfold graph_entry.
  destruct (nth_error cs n) as [[a b]|] eqn:En,
    (nth_error cs m) as [[a' b']|] eqn:Em; try reflexivity.
  cbn [fst snd].
  rewrite (mat_element_compat a b a' b' _ _ _ _ _ (predicted_at_rest n a b En)).
  rewrite (mat_element_compat a' b' a b _ _ _ _ _ (predicted_at_rest m a' b' Em)).
  apply (mat_element_symmetric (fun i => s4w (d_vel i))).
Qed.

(** X19. The matrix is symmetric when nothing moves relative to its
    partner: if the two particles of every constraint have the same
    velocity, a store into cell (n, m) and a store into cell (m, n) carry
    equal values.  (With relative velocities the entries use the predicted
    separation of the row's constraint and differ in general.) *)
Theorem matrix_symmetric_at_rest (T n m : nat) (v v' : Q) :
  (n < n_constraint)%nat -> (m < n_constraint)%nat ->
  In (MatW (m * n_constraint + n) v)
     (launch_writes n_constraint nptl_local d_pos d_vel d_netforce d_gpu_clist
        gpu_clist_indexer d_gpu_n_constraints d_gpu_cpos d_group_typeval
        deltaT box T) ->
  In (MatW (n * n_constraint + m) v')
     (launch_writes n_constraint nptl_local d_pos d_vel d_netforce d_gpu_clist
        gpu_clist_indexer d_gpu_n_constraints d_gpu_cpos d_group_typeval
        deltaT box T) ->
  v == v'.
Proof.
  intros Hn Hm H H'.
  apply (matrix_store_from_graph n_constraint nptl_local d_pos d_vel d_netforce
           d_gpu_clist gpu_clist_indexer d_gpu_n_constraints d_gpu_cpos
           d_group_typeval deltaT box cs ntotal synchronized local_below
           endpoints_below all_constraints addressable) in H, H'.
  destruct H as (n1 & m1 & Hn1 & Hm1 & Hc & ->).
  destruct H' as (n2 & m2 & Hn2 & Hm2 & Hc' & ->).
  destruct (cell_injective n_constraint n m n1 m1 Hn Hn1 Hc) as [<- <-].
  destruct (cell_injective n_constraint m n n2 m2 Hm Hn2 Hc') as [<- <-].
  apply graph_entry_symmetric.
Qed.

End Symmetry.

Lemma chain_synchronized :
  Constraint.table_matches 3 Chain.d_gpu_clist Chain.gpu_clist_indexer
    Chain.d_gpu_n_constraints Chain.d_gpu_cpos Chain.graph.
Proof.
  intros p Hp.
  destruct p as [|[|[|p]]]; [| | |lia]; vm_compute; apply Permutation_refl.
Defined.

Lemma chain_endpoints_below (n a b : nat) :
  nth_error Chain.graph n = Some (a, b) -> a < 3 /\ b < 3.
Proof.
  destruct n as [|[|[|n]]]; simpl; intros H; try discriminate H;
    injection H as <- <-; split; lia.
Defined.

Lemma chain_at_rest (n a b : nat) :
  nth_error Chain.graph n = Some (a, b) ->
  Constraint.veq (Constraint.vec3_of (Chain.d_vel a))
                 (Constraint.vec3_of (Chain.d_vel b)).
Proof. intros _. repeat split; reflexivity. Defined.

Lemma matrix_symmetric_at_rest_witness : Qeq Chain.upper Chain.lower.
Proof.
  apply (matrix_symmetric_at_rest Chain.n_constraint Chain.nptl_local
           Chain.d_pos Chain.d_vel Chain.d_netforce Chain.d_gpu_clist
           Chain.gpu_clist_indexer Chain.d_gpu_n_constraints Chain.d_gpu_cpos
           Chain.d_group_typeval Chain.deltaT Chain.box Chain.graph 3
           chain_synchronized ltac:(vm_compute; lia) chain_endpoints_below
           eq_refl ltac:(vm_compute; discriminate) chain_at_rest 32 0 1).
  - vm_compute. lia.
  - vm_compute. lia.
  - vm_compute. repeat (first [left; reflexivity | right]).
  - vm_compute. repeat (first [left; reflexivity | right]).
Defined.

Example chain_off_diagonal :
  Qeq Chain.upper (- (2)) /\ Qeq Chain.lower (- (2)).
Proof. split; vm_compute; reflexivity. Qed.
